(** * bf3.py: a run-length folding brainfuck interpreter

    A shallow embedding of [src/python/bf3.py] (class [Interpreter]):
    the compiler [parse], which folds runs of same-kind instructions and
    nests loop bodies with an explicit stack, and the executor [execute],
    which walks the compiled tree over a growable tape of cells.

    Python integers are unbounded, so they are [Z].  Python lists are Rocq
    lists in the same order (element 0 first); indexing follows Python,
    negative indices included.  An exception leaves the attributes of the
    interpreter as they were when it was raised, so every operation is a
    computation in a state-and-exception monad over the [Interpreter]
    record.  [sys.stdin] and [sys.stdout] are two more components of that
    state: the characters not yet read and the characters written so far,
    each a Unicode code point.  [sys.stdout] is the stream Python opens by
    default: utf-8 with strict error handling, which encodes a character
    when it is written.

    Not modelled: the wall-clock measurements of [run] and its two report
    lines, the command line and the file reading of [main], and the limits
    of the Python process (recursion depth, memory). *)

From Stdlib Require Import ZArith Ascii String Lia.
From stdpp Require Import base tactics option list.

Local Open Scope Z_scope.

(** ** Tokens and compiled nodes *)

(** [class Token(MultiValueEnum)]: six members, two of them with two
    values each. *)
Inductive Token : Type :=
  | IncrPtr | Incr | StdOut | StdIn | LoopStart | LoopEnd.

Definition Token_eqb (a b : Token) : bool :=
  match a, b with
  | IncrPtr, IncrPtr | Incr, Incr | StdOut, StdOut
  | StdIn, StdIn | LoopStart, LoopStart | LoopEnd, LoopEnd => true
  | _, _ => false
  end.

(** An element of a compiled list is either a [CountedToken] named tuple or
    a Python list, the body of a loop. *)
#[warnings="-register-all"]
Inductive c_token : Type :=
  | CountedToken (token : Token) (count : Z)
  | Loop (body : list c_token).

(** ** Exceptions *)

Inductive exn : Type :=
  | NoMatchingOpen (pos : nat)
      (* Exception("BF script error: no matching open bracket for closed
         bracket at {}".format(self.instr_ptr)) *)
  | NoMatchingClosed
      (* Exception("BF script error: no matching closed bracket for open
         bracket") *)
  | ValueError   (* Token(ch) with no such value, chr() of a C int that
                    is not in range(0x110000), negative shift count *)
  | IndexError   (* list index out of range *)
  | TypeError    (* ord() of a string whose length is not 1 *)
  | OverflowError         (* chr() of an integer that is no C int *)
  | UnicodeEncodeError.   (* a lone surrogate written to sys.stdout *)

(** The two script errors of [parse] are what the specification calls the
    [SyntaxError] kind. *)
Definition is_SyntaxError (e : exn) : bool :=
  match e with
  | NoMatchingOpen _ | NoMatchingClosed => true
  | _ => false
  end.

(** ** The interpreter object *)

Record Interpreter : Type := mkInterpreter {
  stack : list (list c_token);   (* top of the stack is the LAST element *)
  c_tokens : list c_token;
  data_ptr : Z;
  instr_ptr : nat;               (* starts at 0 and is only incremented *)
  program : list ascii;
  cell_size : Z;
  memory : list Z;
  max_int : Z;
  sys_stdin : list Z;            (* code points still to be read *)
  sys_stdout : list Z            (* code points written, oldest first *)
}.

Definition set_stack (v : list (list c_token)) (it : Interpreter) :=
  mkInterpreter v (c_tokens it) (data_ptr it) (instr_ptr it) (program it)
    (cell_size it) (memory it) (max_int it) (sys_stdin it) (sys_stdout it).
Definition set_c_tokens (v : list c_token) (it : Interpreter) :=
  mkInterpreter (stack it) v (data_ptr it) (instr_ptr it) (program it)
    (cell_size it) (memory it) (max_int it) (sys_stdin it) (sys_stdout it).
Definition set_data_ptr (v : Z) (it : Interpreter) :=
  mkInterpreter (stack it) (c_tokens it) v (instr_ptr it) (program it)
    (cell_size it) (memory it) (max_int it) (sys_stdin it) (sys_stdout it).
Definition set_instr_ptr (v : nat) (it : Interpreter) :=
  mkInterpreter (stack it) (c_tokens it) (data_ptr it) v (program it)
    (cell_size it) (memory it) (max_int it) (sys_stdin it) (sys_stdout it).
Definition set_program (v : list ascii) (it : Interpreter) :=
  mkInterpreter (stack it) (c_tokens it) (data_ptr it) (instr_ptr it) v
    (cell_size it) (memory it) (max_int it) (sys_stdin it) (sys_stdout it).
Definition set_memory (v : list Z) (it : Interpreter) :=
  mkInterpreter (stack it) (c_tokens it) (data_ptr it) (instr_ptr it)
    (program it) (cell_size it) v (max_int it) (sys_stdin it) (sys_stdout it).
Definition set_sys_stdin (v : list Z) (it : Interpreter) :=
  mkInterpreter (stack it) (c_tokens it) (data_ptr it) (instr_ptr it)
    (program it) (cell_size it) (memory it) (max_int it) v (sys_stdout it).
Definition set_sys_stdout (v : list Z) (it : Interpreter) :=
  mkInterpreter (stack it) (c_tokens it) (data_ptr it) (instr_ptr it)
    (program it) (cell_size it) (memory it) (max_int it) (sys_stdin it) v.

(** ** State and exception monad *)

Inductive res (A : Type) : Type :=
  | Val (a : A) (it : Interpreter)      (* normal completion *)
  | Exc (e : exn) (it : Interpreter)    (* raised, with the state left behind *)
  | OutOfFuel.                          (* the model's step bound was reached *)
Arguments Val {A} a it.
Arguments Exc {A} e it.
Arguments OutOfFuel {A}.

Definition M (A : Type) : Type := Interpreter -> res A.

Definition ret {A} (a : A) : M A := fun it => Val a it.
Definition bind {A B} (c : M A) (k : A -> M B) : M B :=
  fun it =>
    match c it with
    | Val a it' => k a it'
    | Exc e it' => Exc e it'
    | OutOfFuel => OutOfFuel
    end.
Definition raise {A} (e : exn) : M A := fun it => Exc e it.
Definition out_of_fuel {A} : M A := fun _ => OutOfFuel.
Definition get : M Interpreter := fun it => Val it it.
Definition modify (f : Interpreter -> Interpreter) : M unit :=
  fun it => Val tt (f it).

Notation "x <- c1 ;; c2" := (bind c1 (fun x => c2))
  (at level 100, c1 at next level, right associativity).
Notation "c1 ;; c2" := (bind c1 (fun _ => c2))
  (at level 100, right associativity).

(** ** Python primitives *)

(** [l[i]] for a list of length [len]: the position addressed, if any.
    Indices from [-len] to [-1] count from the end. *)
Definition py_index (len : nat) (i : Z) : option nat :=
  if (0 <=? i) && (i <? Z.of_nat len) then Some (Z.to_nat i)
  else if (- Z.of_nat len <=? i) && (i <? 0) then Some (Z.to_nat (Z.of_nat len + i))
  else None.

Definition getitem (l : list Z) (i : Z) : option Z :=
  match py_index (length l) i with
  | Some n => l !! n
  | None => None
  end.

Definition setitem (l : list Z) (i : Z) (v : Z) : option (list Z) :=
  match py_index (length l) i with
  | Some n => Some (<[n := v]> l)
  | None => None
  end.

(** [a << b] *)
Definition lshift (a b : Z) : M Z :=
  if b <? 0 then raise ValueError else ret (Z.shiftl a b).

(** [chr(v)]: the argument is converted to a C [int] first, 32 bits wide,
    and has to be a code point then. *)
Definition chr (v : Z) : M Z :=
  if (v <? -2147483648) || (2147483647 <? v) then raise OverflowError
  else if (0 <=? v) && (v <? 1114112) then ret v
  else raise ValueError.

(** The lone surrogates U+D800 to U+DFFF, which utf-8 does not encode. *)
Definition surrogate (c : Z) : bool := (55296 <=? c) && (c <=? 57343).

(** The cell values an Output operation can write: the code points that
    are no surrogates. *)
Definition writable (v : Z) : bool :=
  (0 <=? v) && (v <? 1114112) && negb (surrogate v).

(** [ord(s)] *)
Definition ord (s : list Z) : M Z :=
  match s with
  | [c] => ret c
  | _ => raise TypeError
  end.

(** [sys.stdin.read(n)]: up to [n] characters, fewer only at the end of the
    input; everything that is left when [n] is negative. *)
Definition sys_stdin_read (n : Z) : M (list Z) :=
  fun it =>
    if n <? 0 then Val (sys_stdin it) (set_sys_stdin [] it)
    else Val (take (Z.to_nat n) (sys_stdin it))
             (set_sys_stdin (drop (Z.to_nat n) (sys_stdin it)) it).

(** [sys.stdout.write(c)]: the character is encoded at once, and one that
    cannot be is not written. *)
Definition sys_stdout_write (c : Z) : M unit :=
  if surrogate c then raise UnicodeEncodeError
  else modify (fun it => set_sys_stdout (sys_stdout it ++ [c]) it).

(** [self.memory[self.data_ptr]] as an expression *)
Definition load_cell : M Z :=
  fun it =>
    match getitem (memory it) (data_ptr it) with
    | Some v => Val v it
    | None => Exc IndexError it
    end.

(** [self.memory[self.data_ptr] = v] *)
Definition store_cell (v : Z) : M unit :=
  fun it =>
    match setitem (memory it) (data_ptr it) v with
    | Some m => Val tt (set_memory m it)
    | None => Exc IndexError it
    end.

(** [Token(ch)]: lookup by value *)
Definition Token_of (ch : ascii) : option Token :=
  if Ascii.eqb ch ">" || Ascii.eqb ch "<" then Some IncrPtr
  else if Ascii.eqb ch "+" || Ascii.eqb ch "-" then Some Incr
  else if Ascii.eqb ch "." then Some StdOut
  else if Ascii.eqb ch "," then Some StdIn
  else if Ascii.eqb ch "[" then Some LoopStart
  else if Ascii.eqb ch "]" then Some LoopEnd
  else None.

Definition Token_call (ch : ascii) : M Token :=
  match Token_of ch with
  | Some t => ret t
  | None => raise ValueError
  end.

(** [-1 if ch in "<-" else 1] *)
Definition step_of (ch : ascii) : Z :=
  if Ascii.eqb ch "<" || Ascii.eqb ch "-" then -1 else 1.

(** [self.program[i]] for [i >= 0] *)
Definition program_at (i : nat) : M ascii :=
  fun it =>
    match program it !! i with
    | Some ch => Val ch it
    | None => Exc IndexError it
    end.

(** ** [Interpreter.__init__] *)

(** [units] only selects the unit of the timing report and is left out.
    [[0] * m_size] is empty for a negative [m_size]; [2 << (c_size - 1)]
    raises [ValueError] for [c_size <= 0], and then no object is built. *)
Definition init (prog : list ascii) (c_size m_size : Z) (input : list Z)
  : option Interpreter :=
  if c_size - 1 <? 0 then None
  else Some {| stack := []; c_tokens := []; data_ptr := 0; instr_ptr := 0%nat;
               program := prog; cell_size := c_size;
               memory := replicate (Z.to_nat m_size) 0;
               max_int := Z.shiftl 2 (c_size - 1);
               sys_stdin := input; sys_stdout := [] |}.

(** ** Tape operations *)

Definition incr_ptr (count : Z) : M unit :=
  modify (fun it => set_data_ptr (data_ptr it + count) it) ;;
  it <- get ;;
  if data_ptr it =? Z.of_nat (length (memory it))
  then modify (set_memory (memory it ++ replicate (length (memory it) / 2)%nat 0))
  else ret tt.

Definition incr (count : Z) : M unit :=
  v <- load_cell ;;
  store_cell (v + count) ;;
  v' <- load_cell ;;
  it <- get ;;
  m <- lshift 2 (cell_size it - 1) ;;
  store_cell (v' mod m).

Fixpoint stdout_loop (n : nat) : M unit :=
  match n with
  | O => ret tt
  | S n' =>
      v <- load_cell ;;
      c <- chr v ;;
      sys_stdout_write c ;;
      stdout_loop n'
  end.

(** [range(count)] is empty when [count <= 0]; [flush] changes nothing
    here. *)
Definition stdout (count : Z) : M unit := stdout_loop (Z.to_nat count).

(** The right-hand side is evaluated before the subscript is stored. *)
Definition stdin (count : Z) : M unit :=
  s <- sys_stdin_read count ;;
  c <- ord s ;;
  store_cell c.

(** ** [Interpreter.parse] *)

(** [l.pop()]: what remains of the list, and its last element. *)
Fixpoint pop {A} (l : list A) : option (list A * A) :=
  match l with
  | [] => None
  | x :: l' =>
      match pop l' with
      | Some (r, y) => Some (x :: r, y)
      | None => Some ([], x)
      end
  end.

(** [stack[-1].append(x)] *)
Fixpoint append_top (x : c_token) (st : list (list c_token))
  : list (list c_token) :=
  match st with
  | [] => []
  | b :: st' =>
      match st' with
      | [] => [b ++ [x]]
      | _ :: _ => b :: append_top x st'
      end
  end.

(** [if self.stack: self.stack[-1].append(x) else: self.c_tokens.append(x)],
    which [parse] does for a finished loop and for a counted token. *)
Definition emit (x : c_token) : M unit :=
  modify (fun it =>
    match stack it with
    | [] => set_c_tokens (c_tokens it ++ [x]) it
    | _ :: _ => set_stack (append_top x (stack it)) it
    end).

(** The inner [while] of [parse]: swallow the following characters of the
    same token, adding their steps to [count].  Every iteration moves
    [instr_ptr] forward, so [fuel] bounds the iterations. *)
Fixpoint fold_run (fuel : nat) (token : Token) (count : Z) : M Z :=
  it <- get ;;
  if (instr_ptr it <? length (program it) - 1)%nat then
    ch <- program_at (instr_ptr it + 1) ;;
    t <- Token_call ch ;;
    if Token_eqb token t then
      match fuel with
      | O => out_of_fuel
      | S fuel' =>
          modify (fun it => set_instr_ptr (instr_ptr it + 1) it) ;;
          it' <- get ;;
          ch' <- program_at (instr_ptr it') ;;
          fold_run fuel' token (count + step_of ch')
      end
    else ret count
  else ret count.

(** The [if]/[elif]/[else] of the body of the outer [while]: what is done
    with the token at [instr_ptr], [count] being the step of its
    character. *)
Definition parse_branch (token : Token) (count : Z) : M unit :=
  match token with
  | LoopStart => modify (fun it => set_stack (stack it ++ [[]]) it)
  | LoopEnd =>
      it <- get ;;
      match pop (stack it) with
      | Some (rest, loop) =>
          modify (set_stack rest) ;;
          emit (Loop loop)
      | None => raise (NoMatchingOpen (instr_ptr it))
      end
  | _ =>
      it <- get ;;
      count' <- fold_run (length (program it)) token count ;;
      emit (CountedToken token count')
  end.

(** The outer [while] of [parse]. *)
Fixpoint parse_loop (fuel : nat) : M unit :=
  it <- get ;;
  if (instr_ptr it <? length (program it))%nat then
    match fuel with
    | O => out_of_fuel
    | S fuel' =>
        ch <- program_at (instr_ptr it) ;;
        token <- Token_call ch ;;
        parse_branch token (step_of ch) ;;
        modify (fun it => set_instr_ptr (instr_ptr it + 1) it) ;;
        parse_loop fuel'
    end
  else ret tt.

Definition parse : M unit :=
  it <- get ;;
  parse_loop (length (program it)) ;;
  it' <- get ;;
  match stack it' with
  | [] => ret tt
  | _ :: _ => raise NoMatchingClosed
  end.

(** ** [Interpreter.execute] *)

(** A loop may run for ever, so the executor takes a bound on the number of
    nested calls and iterations and reports [OutOfFuel] beyond it. *)
Fixpoint execute (fuel : nat) (c_tokens : list c_token) : M unit :=
  match fuel with
  | O => out_of_fuel
  | S fuel' =>
      match c_tokens with
      | [] => ret tt
      | Loop body :: rest =>
          v <- load_cell ;;
          if v =? 0 then execute fuel' rest
          else execute fuel' body ;; execute fuel' (Loop body :: rest)
      | CountedToken token count :: rest =>
          match token with
          | IncrPtr => incr_ptr count
          | Incr => incr count
          | StdOut => stdout count
          | StdIn => stdin count
          | LoopStart | LoopEnd => ret tt
          end ;;
          execute fuel' rest
      end
  end.

(** [Interpreter.run], without its clock readings and report. *)
Definition run (fuel : nat) : M unit :=
  parse ;;
  it <- get ;;
  execute fuel (c_tokens it).

(** A program text as the list of its characters. *)
Definition src (s : string) : list ascii := list_ascii_of_string s.

(** The state a computation leaves behind, whether it completed or raised. *)
Definition final_state {A} (r : res A) : option Interpreter :=
  match r with
  | Val _ it | Exc _ it => Some it
  | OutOfFuel => None
  end.

(** The signed sum of the steps of the characters of a run. *)
Definition net_steps (run : list ascii) : Z :=
  foldr (fun ch acc => step_of ch + acc) 0 run.

(** Every cell of the tape is an unsigned [cell_size]-bit integer. *)
Definition cells_in_range (it : Interpreter) : Prop :=
  Forall (fun v => 0 <= v < 2 ^ cell_size it) (memory it).

(** Whether a compiled node is, or contains, an [IncrPtr] node. *)
Fixpoint moves_ptr (t : c_token) : bool :=
  match t with
  | CountedToken IncrPtr _ => true
  | CountedToken _ _ => false
  | Loop body => existsb moves_ptr body
  end.

Definition moves_free (prog : list c_token) : bool :=
  forallb (fun t => negb (moves_ptr t)) prog.

(** A computation that leaves [data_ptr] as it found it, however it ends. *)
Definition keeps_ptr {A} (c : M A) : Prop :=
  forall it it', final_state (c it) = Some it' -> data_ptr it' = data_ptr it.

(** What [parse] never touches: the tape, its pointer, the configuration and
    the two streams. *)
Definition parse_frame (it it' : Interpreter) : Prop :=
  data_ptr it' = data_ptr it /\ program it' = program it
  /\ cell_size it' = cell_size it /\ memory it' = memory it
  /\ max_int it' = max_int it
  /\ sys_stdin it' = sys_stdin it /\ sys_stdout it' = sys_stdout it.

(** From [it] to [it'] by the inner [while]: only [instr_ptr] moved, forward
    and not past the last character. *)
Definition folded (it it' : Interpreter) : Prop :=
  parse_frame it it' /\ stack it' = stack it /\ c_tokens it' = c_tokens it
  /\ (instr_ptr it <= instr_ptr it')%nat
  /\ ((instr_ptr it' < length (program it))%nat
      \/ instr_ptr it' = instr_ptr it).

(** From [it] to [it'] by steps of the outer [while]: [c_tokens] only grew
    at its end and [instr_ptr] moved forward, not past the end of the
    program. *)
Definition scanned (it it' : Interpreter) : Prop :=
  parse_frame it it' /\ c_tokens it `prefix_of` c_tokens it'
  /\ (instr_ptr it <= instr_ptr it')%nat
  /\ ((instr_ptr it <= length (program it))%nat ->
      (instr_ptr it' <= length (program it))%nat).

(** The interpreter [it] with the compile-time attributes as [__init__]
    sets them for the program [prog]. *)
Definition at_start (prog : list ascii) (it : Interpreter) : Interpreter :=
  mkInterpreter [] [] (data_ptr it) 0 prog (cell_size it) (memory it)
    (max_int it) (sys_stdin it) (sys_stdout it).

(** The interpreter [it] once [parse] has returned with [ct] compiled and
    [instr_ptr] at [ip]. *)
Definition compiled (ct : list c_token) (ip : nat) (it : Interpreter)
  : Interpreter :=
  set_c_tokens ct (set_instr_ptr ip it).

(** A tape of one cell holding [v], the pointer on it. *)
Definition one_cell (c_size v : Z) : Interpreter :=
  mkInterpreter [] [] 0 0 [] c_size [v] (Z.shiftl 2 (c_size - 1)) [] [].

(** The compiled body of the loop [[<+>-]]. *)
Definition transfer_body : list c_token :=
  [CountedToken IncrPtr (-1); CountedToken Incr 1;
   CountedToken IncrPtr 1; CountedToken Incr (-1)].

(** A tape whose first two cells are [a] and [b], the pointer at [p]. *)
Definition tape2 (st : list (list c_token)) (ct : list c_token) (ip : nat)
    (prog : list ascii) (W mi : Z) (tl sin sout : list Z) (a b p : Z)
  : Interpreter :=
  mkInterpreter st ct p ip prog W (a :: b :: tl) mi sin sout.

(** ** [main]: the text handed to the interpreter *)

(** [instructions = set("><+-.,[]")] *)
Definition instructions : list ascii := src "><+-.,[]".

(** [char in instructions] *)
Definition is_instruction (ch : ascii) : bool :=
  existsb (Ascii.eqb ch) instructions.

(** ["".join([char for char in file.read() if char in instructions])];
    a character outside the eight instructions is dropped, whatever it
    is. *)
Definition clean (text : list ascii) : list ascii :=
  List.filter is_instruction text.

(** ** Reference notions for the properties of [parse] and [execute] *)

(** The brackets of a text read from left to right, [depth] of them open at
    position [pos]: the position of the first close bracket that has no open
    one, or else the number of brackets left open at the end. *)
Fixpoint bracket_scan (depth pos : nat) (l : list ascii) : nat + nat :=
  match l with
  | [] => inr depth
  | ch :: l' =>
      if Ascii.eqb ch "[" then bracket_scan (S depth) (S pos) l'
      else if Ascii.eqb ch "]" then
        match depth with
        | O => inl pos
        | S d => bracket_scan d (S pos) l'
        end
      else bracket_scan depth (S pos) l'
  end.

(** Two neighbours in a compiled list that are counted nodes of the same
    token. *)
Definition same_kind (a b : c_token) : bool :=
  match a, b with
  | CountedToken t _, CountedToken t' _ => Token_eqb t t'
  | _, _ => false
  end.

Fixpoint adjacent_differ (l : list c_token) : bool :=
  match l with
  | [] => true
  | a :: l' =>
      match l' with
      | [] => true
      | b :: _ => negb (same_kind a b) && adjacent_differ l'
      end
  end.

(** A node as [parse] builds them: a counted node carries no bracket token,
    an Output or Input node counts at least one character, and in a loop
    body, at every depth, no two neighbours are counted nodes of the same
    token. *)
Fixpoint well_formed (t : c_token) : bool :=
  match t with
  | CountedToken IncrPtr _ | CountedToken Incr _ => true
  | CountedToken StdOut c | CountedToken StdIn c => 1 <=? c
  | CountedToken LoopStart _ | CountedToken LoopEnd _ => false
  | Loop body => adjacent_differ body && forallb well_formed body
  end.

Definition well_formed_list (l : list c_token) : bool :=
  adjacent_differ l && forallb well_formed l.

(** The list [parse] appends to: the body on top of the stack, or
    [c_tokens] when no loop is open. *)
Definition target (it : Interpreter) : list c_token :=
  match pop (stack it) with
  | Some (_, body) => body
  | None => c_tokens it
  end.

(** What holds of the lists under construction each time the outer [while]
    tests its condition. *)
Definition scan_inv (it : Interpreter) : Prop :=
  Forall (fun l => well_formed_list l = true) (stack it)
  /\ well_formed_list (c_tokens it) = true
  /\ (forall (t : Token) (c : Z) (ch : ascii),
        last (target it) = Some (CountedToken t c) ->
        program it !! instr_ptr it = Some ch ->
        Token_of ch <> Some t).

(** No loop node at the top level of a compiled list. *)
Definition loop_free (prog : list c_token) : bool :=
  forallb (fun t => match t with CountedToken _ _ => true | Loop _ => false end)
    prog.

(** The sum of the counts of the [IncrPtr] nodes of a list. *)
Definition net_moves (prog : list c_token) : Z :=
  foldr (fun t acc =>
           match t with
           | CountedToken IncrPtr c => c + acc
           | _ => acc
           end) 0 prog.

(** What [execute] may do to the interpreter: lengthen the tape, take
    characters from the front of the input, add characters at the end of
    the output, and nothing to the attributes of [parse]. *)
Definition exec_frame (it it' : Interpreter) : Prop :=
  stack it' = stack it /\ c_tokens it' = c_tokens it
  /\ instr_ptr it' = instr_ptr it /\ program it' = program it
  /\ cell_size it' = cell_size it /\ max_int it' = max_int it
  /\ (length (memory it) <= length (memory it'))%nat
  /\ sys_stdin it' `suffix_of` sys_stdin it
  /\ sys_stdout it `prefix_of` sys_stdout it'.

(** Every character still to be read fits a cell. *)
Definition input_in_range (it : Interpreter) : Prop :=
  Forall (fun ch => 0 <= ch < 2 ^ cell_size it) (sys_stdin it).

(** A computation that, however it ends, has only done what [exec_frame]
    allows. *)
Definition framed {A} (c : M A) : Prop :=
  forall it it', final_state (c it) = Some it' -> exec_frame it it'.

(** The state in which cells and pending input fit the cell size. *)
Definition ranged (it : Interpreter) : Prop :=
  1 <= cell_size it /\ cells_in_range it /\ input_in_range it.

(** The operation [execute] dispatches a counted node to. *)
Definition dispatch (token : Token) (count : Z) : M unit :=
  match token with
  | IncrPtr => incr_ptr count
  | Incr => incr count
  | StdOut => stdout count
  | StdIn => stdin count
  | LoopStart | LoopEnd => ret tt
  end.

(** A computation that needs no fuel: it always returns or raises. *)
Definition total {A} (c : M A) : Prop := forall it, c it <> OutOfFuel.

(** * Properties *)

(** ** Python indexing *)

Lemma py_index_nonneg (len : nat) (i : Z) :
  0 <= i < Z.of_nat len -> py_index len i = Some (Z.to_nat i).
Proof.
  intros [H0 H1]. unfold py_index.
  apply Z.leb_le in H0. apply Z.ltb_lt in H1. now rewrite H0, H1.
Qed.

Lemma py_index_negative (len : nat) (i : Z) :
  - Z.of_nat len <= i < 0 ->
  py_index len i = Some (Z.to_nat (Z.of_nat len + i)).
Proof.
  intros [H0 H1]. unfold py_index.
  destruct (0 <=? i) eqn:E; [apply Z.leb_le in E; lia|].
  apply Z.leb_le in H0. apply Z.ltb_lt in H1. now rewrite H0, H1.
Qed.

Lemma py_index_lt (len : nat) (i : Z) (n : nat) :
  py_index len i = Some n -> (n < len)%nat.
Proof.
  unfold py_index.
  destruct (0 <=? i) eqn:E0, (i <? Z.of_nat len) eqn:E1; simpl;
    try (destruct (- Z.of_nat len <=? i) eqn:E2, (i <? 0) eqn:E3; simpl);
    intros [= <-];
    repeat match goal with
    | H : (_ <=? _) = true |- _ => apply Z.leb_le in H
    | H : (_ <? _) = true |- _ => apply Z.ltb_lt in H
    | H : (_ <=? _) = false |- _ => apply Z.leb_gt in H
    | H : (_ <? _) = false |- _ => apply Z.ltb_ge in H
    end; lia.
Qed.

Lemma py_index_out (len : nat) (i : Z) :
  Z.of_nat len <= i -> py_index len i = None.
Proof.
  intros H. unfold py_index.
  destruct (i <? Z.of_nat len) eqn:E1; [apply Z.ltb_lt in E1; lia|].
  destruct (i <? 0) eqn:E2; [apply Z.ltb_lt in E2; lia|].
  now rewrite !andb_false_r.
Qed.

Lemma getitem_Some (l : list Z) (i : Z) (n : nat) (v : Z) :
  py_index (length l) i = Some n -> l !! n = Some v -> getitem l i = Some v.
Proof. intros Hn Hv. unfold getitem. now rewrite Hn. Qed.

Lemma getitem_inv (l : list Z) (i v : Z) :
  getitem l i = Some v ->
  exists n, py_index (length l) i = Some n /\ l !! n = Some v.
Proof.
  unfold getitem. destruct (py_index (length l) i) as [n|]; [|discriminate].
  intros H. now exists n.
Qed.

Lemma lshift_2 (w : Z) : 1 <= w -> Z.shiftl 2 (w - 1) = 2 ^ w.
Proof.
  intros H. rewrite Z.shiftl_mul_pow2 by lia.
  replace w with (Z.succ (w - 1)) at 2 by lia.
  rewrite Z.pow_succ_r by lia. reflexivity.
Qed.

(** ** Tape operations *)

Lemma load_cell_at (it : Interpreter) (n : nat) (v : Z) :
  py_index (length (memory it)) (data_ptr it) = Some n ->
  memory it !! n = Some v ->
  load_cell it = Val v it.
Proof.
  intros Hn Hv. unfold load_cell. now rewrite (getitem_Some _ _ _ _ Hn Hv).
Qed.

Lemma store_cell_at (it : Interpreter) (n : nat) (v : Z) :
  py_index (length (memory it)) (data_ptr it) = Some n ->
  store_cell v it = Val tt (set_memory (<[n := v]> (memory it)) it).
Proof. intros Hn. unfold store_cell, setitem. now rewrite Hn. Qed.

Lemma incr_at (it : Interpreter) (c v : Z) (n : nat) :
  1 <= cell_size it ->
  py_index (length (memory it)) (data_ptr it) = Some n ->
  memory it !! n = Some v ->
  incr c it
  = Val tt (set_memory (<[n := (v + c) mod 2 ^ cell_size it]> (memory it)) it).
Proof.
  intros HW Hn Hv. pose proof (py_index_lt _ _ _ Hn) as Hlt.
  unfold incr, bind.
  rewrite (load_cell_at it n v Hn Hv).
  rewrite (store_cell_at it n _ Hn).
  set (it1 := set_memory _ it).
  assert (Hn1 : py_index (length (memory it1)) (data_ptr it1) = Some n).
  { subst it1; simpl. now rewrite length_insert. }
  assert (Hv1 : memory it1 !! n = Some (v + c)).
  { subst it1; simpl. now apply list_lookup_insert_eq. }
  rewrite (load_cell_at it1 n _ Hn1 Hv1).
  unfold get, lshift.
  replace (cell_size it1 - 1 <? 0) with false
    by (symmetry; apply Z.ltb_ge; subst it1; simpl; lia).
  unfold ret. rewrite (store_cell_at it1 n _ Hn1).
  subst it1; simpl. rewrite list_insert_insert_eq.
  now rewrite lshift_2 by assumption.
Qed.

Lemma incr_ptr_unfold (it : Interpreter) (c : Z) :
  incr_ptr c it
  = Val tt
      (if data_ptr it + c =? Z.of_nat (length (memory it))
       then set_memory (memory it ++ replicate (length (memory it) / 2)%nat 0)
              (set_data_ptr (data_ptr it + c) it)
       else set_data_ptr (data_ptr it + c) it).
Proof.
  unfold incr_ptr, bind, modify, get; simpl.
  now destruct (data_ptr it + c =? Z.of_nat (length (memory it))).
Qed.

Lemma incr_ptr_nogrow (it : Interpreter) (c : Z) :
  data_ptr it + c <> Z.of_nat (length (memory it)) ->
  incr_ptr c it = Val tt (set_data_ptr (data_ptr it + c) it).
Proof.
  intros H. rewrite incr_ptr_unfold. apply Z.eqb_neq in H. now rewrite H.
Qed.

Lemma incr_ptr_grow (it : Interpreter) (c : Z) :
  data_ptr it + c = Z.of_nat (length (memory it)) ->
  incr_ptr c it
  = Val tt (set_memory (memory it ++ replicate (length (memory it) / 2)%nat 0)
              (set_data_ptr (data_ptr it + c) it)).
Proof.
  intros H. rewrite incr_ptr_unfold. apply Z.eqb_eq in H. now rewrite H.
Qed.

(** ** Fuel *)

(** More fuel never changes a result that was reached. *)
Lemma execute_mono (fuel : nat) :
  forall (fuel' : nat) (prog : list c_token) (it : Interpreter),
    (fuel <= fuel')%nat ->
    execute fuel prog it <> OutOfFuel ->
    execute fuel' prog it = execute fuel prog it.
Proof.
  induction fuel as [|f IH]; intros fuel' prog it Hle Hr.
  - now contradict Hr.
  - destruct fuel' as [|f']; [lia|].
    assert (Hf : (f <= f')%nat) by lia.
    destruct prog as [|[tok c|body] rest]; simpl in *; [reflexivity| |].
    + unfold bind in *.
      destruct (match tok with
                | IncrPtr => incr_ptr c | Incr => incr c | StdOut => stdout c
                | StdIn => stdin c | _ => ret tt end it); auto.
    + unfold bind in *.
      destruct (load_cell it) as [v it1| |]; auto.
      destruct (v =? 0); auto.
      destruct (execute f body it1) as [[] it2| |] eqn:E.
      * rewrite (IH f' body it1 Hf) by congruence. rewrite E. auto.
      * rewrite (IH f' body it1 Hf) by congruence. now rewrite E.
      * now contradict Hr.
Qed.

Lemma execute_more (fuel fuel' : nat) (prog : list c_token)
    (it it' : Interpreter) :
  (fuel <= fuel')%nat ->
  execute fuel prog it = Val tt it' ->
  execute fuel' prog it = Val tt it'.
Proof.
  intros Hle H. rewrite (execute_mono fuel fuel' prog it Hle); congruence.
Qed.

(** Running one list after another. *)
Lemma execute_app (f1 f2 : nat) (p1 p2 : list c_token)
    (it it1 it2 : Interpreter) :
  execute f1 p1 it = Val tt it1 ->
  execute f2 p2 it1 = Val tt it2 ->
  execute (f1 + f2) (p1 ++ p2) it = Val tt it2.
Proof.
  revert p1 it. induction f1 as [|f IH]; intros p1 it H1 H2; [discriminate|].
  destruct p1 as [|[tok c|body] rest].
  - simpl in H1. injection H1 as <-. simpl app.
    apply (execute_more f2); [lia | assumption].
  - simpl in *. unfold bind in *.
    destruct (match tok with
              | IncrPtr => incr_ptr c | Incr => incr c | StdOut => stdout c
              | StdIn => stdin c | _ => ret tt end it); try discriminate.
    now apply IH.
  - simpl in *. unfold bind in *.
    destruct (load_cell it) as [v it'| |]; try discriminate.
    destruct (v =? 0); [now apply IH|].
    destruct (execute f body it') as [[] it''| |] eqn:E; try discriminate.
    rewrite (execute_more f (f + f2) body it' it'') by (lia || assumption).
    apply (IH (Loop body :: rest)); assumption.
Qed.


Lemma incr_ptr_extends (c : Z) (it : Interpreter) :
  exists (it' : Interpreter) (k : nat),
    incr_ptr c it = Val tt it'
    /\ data_ptr it' = data_ptr it + c
    /\ memory it' = memory it ++ replicate k 0.
Proof.
  rewrite incr_ptr_unfold.
  destruct (data_ptr it + c =? Z.of_nat (length (memory it))).
  - eexists _, _. split; [reflexivity|]. split; reflexivity.
  - eexists _, 0%nat. split; [reflexivity|]. split; [reflexivity|].
    simpl. now rewrite app_nil_r.
Qed.

(** Moving one past the end of a tape of at least two cells makes room. *)
Lemma incr_ptr_grows_at_end (c : Z) (it : Interpreter) :
  data_ptr it + c = Z.of_nat (length (memory it)) ->
  (2 <= length (memory it))%nat ->
  exists it' : Interpreter,
    incr_ptr c it = Val tt it'
    /\ memory it' = memory it ++ replicate (length (memory it) / 2)%nat 0
    /\ (length (memory it) + 1 <= length (memory it'))%nat.
Proof.
  intros Hp HL. rewrite (incr_ptr_grow it c Hp). eexists. split; [reflexivity|].
  split; [reflexivity|]. cbn [memory set_memory].
  rewrite length_app, length_replicate.
  assert (1 <= length (memory it) / 2)%nat by (apply Nat.div_le_lower_bound; lia).
  lia.
Qed.

Lemma writable_spec (v : Z) :
  writable v = true <-> (0 <= v < 55296 \/ 57344 <= v < 1114112).
Proof.
  unfold writable, surrogate.
  destruct (0 <=? v) eqn:E0, (v <? 1114112) eqn:E1, (55296 <=? v) eqn:E2,
    (v <=? 57343) eqn:E3; cbn;
    repeat match goal with
    | H : (_ <=? _) = true |- _ => apply Z.leb_le in H
    | H : (_ <? _) = true |- _ => apply Z.ltb_lt in H
    | H : (_ <=? _) = false |- _ => apply Z.leb_gt in H
    | H : (_ <? _) = false |- _ => apply Z.ltb_ge in H
    end; split; (discriminate || reflexivity || lia).
Qed.

Lemma chr_writable (v : Z) (it : Interpreter) :
  writable v = true -> chr v it = Val v it.
Proof.
  intros H. apply writable_spec in H. unfold chr.
  replace ((v <? -2147483648) || (2147483647 <? v)) with false
    by (symmetry; apply orb_false_intro; apply Z.ltb_ge; lia).
  replace ((0 <=? v) && (v <? 1114112)) with true
    by (symmetry; apply andb_true_intro; split;
        [apply Z.leb_le | apply Z.ltb_lt]; lia).
  reflexivity.
Qed.

Lemma write_writable (v : Z) (it : Interpreter) :
  writable v = true ->
  sys_stdout_write v it = Val tt (set_sys_stdout (sys_stdout it ++ [v]) it).
Proof.
  unfold writable, sys_stdout_write. intros H.
  apply andb_prop in H as [_ H]. apply negb_true_iff in H. now rewrite H.
Qed.

Lemma stdout_loop_writes (n : nat) :
  forall (it : Interpreter) (v : Z),
    getitem (memory it) (data_ptr it) = Some v ->
    writable v = true ->
    stdout_loop n it
    = Val tt (set_sys_stdout (sys_stdout it ++ replicate n v) it).
Proof.
  induction n as [|k IH]; intros it v Hv Hc.
  - simpl. rewrite app_nil_r. now destruct it.
  - cbn [stdout_loop]. unfold bind at 1. unfold load_cell at 1. rewrite Hv.
    unfold bind at 1. rewrite (chr_writable v it Hc).
    unfold bind. rewrite (write_writable v it Hc).
    rewrite (IH _ v) by assumption.
    cbn [set_sys_stdout sys_stdout stack c_tokens data_ptr instr_ptr program
         cell_size memory max_int sys_stdin].
    now rewrite <- app_assoc.
Qed.

(** A read that returns exactly one character stores its code. *)
Lemma stdin_single (count ch : Z) (rest : list Z) (n : nat) (it : Interpreter) :
  sys_stdin it = ch :: rest ->
  count = 1 \/ (1 <= count /\ rest = []) ->
  py_index (length (memory it)) (data_ptr it) = Some n ->
  stdin count it
  = Val tt (set_memory (<[n := ch]> (memory it)) (set_sys_stdin rest it)).
Proof.
  intros Hin Hc Hn. unfold stdin, bind, sys_stdin_read.
  replace (count <? 0) with false by (symmetry; apply Z.ltb_ge; lia).
  rewrite Hin.
  assert (Hread : take (Z.to_nat count) (ch :: rest) = [ch]
                  /\ drop (Z.to_nat count) (ch :: rest) = rest).
  { destruct Hc as [->|[Hc ->]]; [now split|].
    destruct (Z.to_nat count) as [|k] eqn:E; [lia|].
    simpl. now rewrite take_nil, drop_nil. }
  destruct Hread as [-> ->]. unfold ord, ret.
  now rewrite (store_cell_at _ n).
Qed.

(** ** Who moves the pointer *)

Create HintDb keeps.

Lemma keeps_ptr_ret {A} (a : A) : keeps_ptr (ret a).
Proof. intros it it' [= <-]. reflexivity. Qed.

Lemma keeps_ptr_raise {A} (e : exn) : keeps_ptr (@raise A e).
Proof. intros it it' [= <-]. reflexivity. Qed.

Lemma keeps_ptr_out_of_fuel {A} : keeps_ptr (@out_of_fuel A).
Proof. intros it it' [=]. Qed.

Lemma keeps_ptr_get : keeps_ptr get.
Proof. intros it it' [= <-]. reflexivity. Qed.

Lemma keeps_ptr_bind {A B} (c : M A) (k : A -> M B) :
  keeps_ptr c -> (forall a, keeps_ptr (k a)) -> keeps_ptr (bind c k).
Proof.
  intros Hc Hk it it'. unfold bind.
  destruct (c it) as [a it1|e it1|] eqn:E; simpl.
  - intros H. rewrite (Hk a it1 it' H). apply Hc. now rewrite E.
  - intros [= <-]. apply Hc. now rewrite E.
  - discriminate.
Qed.

Lemma load_cell_pure (it : Interpreter) : final_state (load_cell it) = Some it.
Proof. unfold load_cell. now destruct (getitem (memory it) (data_ptr it)). Qed.

Lemma keeps_ptr_load_cell : keeps_ptr load_cell.
Proof. intros it it'. rewrite load_cell_pure. now intros [= <-]. Qed.

Lemma keeps_ptr_store_cell (v : Z) : keeps_ptr (store_cell v).
Proof.
  intros it it'. unfold store_cell.
  destruct (setitem (memory it) (data_ptr it) v); now intros [= <-].
Qed.

Lemma keeps_ptr_lshift (a b : Z) : keeps_ptr (lshift a b).
Proof.
  unfold lshift. destruct (b <? 0); [apply keeps_ptr_raise | apply keeps_ptr_ret].
Qed.

Lemma keeps_ptr_chr (v : Z) : keeps_ptr (chr v).
Proof.
  unfold chr. destruct ((v <? -2147483648) || (2147483647 <? v));
    [apply keeps_ptr_raise|].
  destruct ((0 <=? v) && (v <? 1114112));
    [apply keeps_ptr_ret | apply keeps_ptr_raise].
Qed.

Lemma keeps_ptr_ord (s : list Z) : keeps_ptr (ord s).
Proof.
  unfold ord. destruct s as [|c [|]];
    [apply keeps_ptr_raise | apply keeps_ptr_ret | apply keeps_ptr_raise].
Qed.

Lemma keeps_ptr_read (n : Z) : keeps_ptr (sys_stdin_read n).
Proof.
  intros it it'. unfold sys_stdin_read. destruct (n <? 0); now intros [= <-].
Qed.

Lemma keeps_ptr_write (c : Z) : keeps_ptr (sys_stdout_write c).
Proof.
  unfold sys_stdout_write. destruct (surrogate c); [apply keeps_ptr_raise|].
  intros it it' [= <-]. reflexivity.
Qed.

#[local] Hint Resolve keeps_ptr_ret keeps_ptr_raise keeps_ptr_get keeps_ptr_bind
  keeps_ptr_load_cell keeps_ptr_store_cell keeps_ptr_lshift keeps_ptr_chr
  keeps_ptr_ord keeps_ptr_read keeps_ptr_write keeps_ptr_out_of_fuel : keeps.

Lemma keeps_ptr_incr (c : Z) : keeps_ptr (incr c).
Proof. unfold incr. auto 10 with keeps. Qed.

Lemma keeps_ptr_stdout_loop (n : nat) : keeps_ptr (stdout_loop n).
Proof. induction n; cbn [stdout_loop]; auto 10 with keeps. Qed.

Lemma keeps_ptr_stdout (c : Z) : keeps_ptr (stdout c).
Proof. apply keeps_ptr_stdout_loop. Qed.

Lemma keeps_ptr_stdin (c : Z) : keeps_ptr (stdin c).
Proof. unfold stdin. auto 10 with keeps. Qed.

#[local] Hint Resolve keeps_ptr_incr keeps_ptr_stdout keeps_ptr_stdin : keeps.

Lemma moves_free_body (body : list c_token) :
  existsb moves_ptr body = false -> moves_free body = true.
Proof.
  intros Hb. unfold moves_free. apply forallb_forall. intros x Hx.
  apply negb_true_iff. destruct (moves_ptr x) eqn:E; [|reflexivity].
  assert (existsb moves_ptr body = true) by (apply existsb_exists; eauto).
  congruence.
Qed.

(** A tree without [IncrPtr] nodes never moves the pointer, loops and
    failures included. *)
Lemma keeps_ptr_execute (fuel : nat) :
  forall prog : list c_token,
    moves_free prog = true -> keeps_ptr (execute fuel prog).
Proof.
  induction fuel as [|f IH]; intros prog Hfree; cbn [execute];
    [apply keeps_ptr_out_of_fuel|].
  destruct prog as [|[tok c|body] rest]; [apply keeps_ptr_ret| |].
  - unfold moves_free in Hfree. cbn [forallb] in Hfree.
    apply andb_prop in Hfree as [Ht Hrest].
    apply keeps_ptr_bind; [|intros _; now apply IH].
    destruct tok; auto with keeps. discriminate.
  - unfold moves_free in Hfree. cbn [forallb moves_ptr] in Hfree.
    apply andb_prop in Hfree as [Hb Hrest]. apply negb_true_iff in Hb.
    apply keeps_ptr_bind; [apply keeps_ptr_load_cell|]. intros v.
    destruct (v =? 0); [now apply IH|].
    apply keeps_ptr_bind; [apply IH; now apply moves_free_body|]. intros _.
    apply IH. unfold moves_free. cbn [forallb moves_ptr].
    now rewrite Hb, Hrest.
Qed.

(** C9: [incr], [stdout] and [stdin], whether they complete or raise, and the
    evaluation of a loop condition leave [data_ptr] as it was, and so does
    the execution of any compiled tree without an [IncrPtr] node; [incr_ptr]
    never raises and leaves every existing cell as it was, at most appending
    zero cells. *)
Theorem pointer_frame :
  (forall (c : Z) (it it' : Interpreter),
      final_state (incr c it) = Some it' -> data_ptr it' = data_ptr it)
  /\ (forall (c : Z) (it it' : Interpreter),
      final_state (stdout c it) = Some it' -> data_ptr it' = data_ptr it)
  /\ (forall (c : Z) (it it' : Interpreter),
      final_state (stdin c it) = Some it' -> data_ptr it' = data_ptr it)
  /\ (forall it : Interpreter, final_state (load_cell it) = Some it)
  /\ (forall (fuel : nat) (prog : list c_token) (it it' : Interpreter),
      moves_free prog = true ->
      final_state (execute fuel prog it) = Some it' ->
      data_ptr it' = data_ptr it)
  /\ (forall (c : Z) (it : Interpreter),
      exists (it' : Interpreter) (k : nat),
        incr_ptr c it = Val tt it'
        /\ execute 2 [CountedToken IncrPtr c] it = Val tt it'
        /\ memory it' = memory it ++ replicate k 0
        /\ (forall (i : nat) (v : Z),
              memory it !! i = Some v -> memory it' !! i = Some v)).
Proof.
  split; [exact keeps_ptr_incr|]. split; [exact keeps_ptr_stdout|].
  split; [exact keeps_ptr_stdin|]. split; [exact load_cell_pure|].
  split; [intros fuel prog it it' H; now apply keeps_ptr_execute|].
  intros c it. destruct (incr_ptr_extends c it) as (it' & k & Hr & _ & Hm).
  exists it', k. split; [exact Hr|].
  split; [cbn [execute]; unfold bind; now rewrite Hr|].
  split; [exact Hm|]. intros i v Hv. rewrite Hm. now apply lookup_app_l_Some.
Qed.

(** C9 on a tape [7; 9] with the pointer on the second cell. *)
Lemma pointer_frame_witness :
  let it := tape2 [] [] 0 [] 8 256 [] [65] [] 7 9 1 in
  data_ptr it = 1
  /\ (forall it', final_state (incr 3 it) = Some it' -> data_ptr it' = 1)
  /\ (forall it',
        final_state
          (execute 200 [CountedToken StdIn 1; Loop [CountedToken Incr (-1)];
                        CountedToken StdOut 2] it) = Some it' ->
        data_ptr it' = 1)
  /\ exists it' k,
       incr_ptr 1 it = Val tt it'
       /\ execute 2 [CountedToken IncrPtr 1] it = Val tt it'
       /\ memory it' = [7; 9] ++ replicate k 0
       /\ (forall i v, [7; 9] !! i = Some v -> memory it' !! i = Some v).
Proof.
  split; [reflexivity|].
  split; [apply (proj1 pointer_frame 3)|].
  split; [intros it' H;
          apply (proj1 (proj2 (proj2 (proj2 (proj2 pointer_frame)))) 200%nat
                   [CountedToken StdIn 1; Loop [CountedToken Incr (-1)];
                    CountedToken StdOut 2] _ it' eq_refl H)|].
  apply (proj2 (proj2 (proj2 (proj2 (proj2 pointer_frame)))) 1).
Defined.

(** ** Cell arithmetic *)

(** C6: executing a ModifyCell node with count [c] on a cell holding [v]
    completes and leaves [(v + c) mod 2 ^ W] in that cell, a value that is
    never negative; the pointer and the length of the tape are as before.
    With 8-bit cells 255 incremented once is 0 and 0 decremented once is
    255. *)
Theorem incr_true_modulo :
  (forall (it : Interpreter) (c v : Z),
      1 <= cell_size it ->
      getitem (memory it) (data_ptr it) = Some v ->
      exists (n : nat) (it' : Interpreter),
        py_index (length (memory it)) (data_ptr it) = Some n
        /\ it' = set_memory (<[n := (v + c) mod 2 ^ cell_size it]> (memory it)) it
        /\ incr c it = Val tt it'
        /\ execute 2 [CountedToken Incr c] it = Val tt it'
        /\ getitem (memory it') (data_ptr it')
           = Some ((v + c) mod 2 ^ cell_size it)
        /\ 0 <= (v + c) mod 2 ^ cell_size it < 2 ^ cell_size it)
  /\ incr 1 (one_cell 8 255) = Val tt (one_cell 8 0)
  /\ incr (-1) (one_cell 8 0) = Val tt (one_cell 8 255).
Proof.
  split; [|split; reflexivity].
  intros it c v HW Hv. destruct (getitem_inv _ _ _ Hv) as (n & Hn & Hnv).
  exists n, (set_memory (<[n := (v + c) mod 2 ^ cell_size it]> (memory it)) it).
  pose proof (incr_at it c v n HW Hn Hnv) as Hincr.
  split; [exact Hn|]. split; [reflexivity|]. split; [exact Hincr|].
  split; [cbn [execute]; unfold bind; now rewrite Hincr|].
  split.
  - cbn [memory data_ptr set_memory]. unfold getitem.
    rewrite length_insert, Hn. apply list_lookup_insert_eq.
    now apply (py_index_lt _ _ _ Hn).
  - apply Z.mod_pos_bound. apply Z.pow_pos_nonneg; lia.
Qed.

(** C6 at the wrap from 255 to 0. *)
Lemma incr_true_modulo_witness :
  exists (n : nat) (it' : Interpreter),
    py_index (length (memory (one_cell 8 255))) (data_ptr (one_cell 8 255))
    = Some n
    /\ it' = set_memory (<[n := (255 + 1) mod 2 ^ 8]> [255]) (one_cell 8 255)
    /\ incr 1 (one_cell 8 255) = Val tt it'
    /\ execute 2 [CountedToken Incr 1] (one_cell 8 255) = Val tt it'
    /\ getitem (memory it') (data_ptr it') = Some ((255 + 1) mod 2 ^ 8)
    /\ 0 <= (255 + 1) mod 2 ^ 8 < 2 ^ 8.
Proof.
  apply (proj1 incr_true_modulo (one_cell 8 255) 1 255);
    [simpl; lia | reflexivity].
Defined.

(** ** The range of the cells *)

Lemma init_cells_in_range (prog : list ascii) (c_size m_size : Z)
    (input : list Z) (it : Interpreter) :
  init prog c_size m_size input = Some it ->
  cells_in_range it /\ 1 <= cell_size it.
Proof.
  unfold init. destruct (c_size - 1 <? 0) eqn:E; [discriminate|].
  apply Z.ltb_ge in E. intros [= <-]. split; [|simpl; lia].
  unfold cells_in_range. simpl. apply Forall_replicate.
  split; [lia|]. apply Z.pow_pos_nonneg; lia.
Qed.

Lemma incr_cells_in_range (c : Z) (it it' : Interpreter) :
  1 <= cell_size it -> cells_in_range it ->
  final_state (incr c it) = Some it' -> cells_in_range it'.
Proof.
  intros HW Hr.
  destruct (getitem (memory it) (data_ptr it)) as [v|] eqn:Hv.
  - destruct (getitem_inv _ _ _ Hv) as (n & Hn & Hnv).
    rewrite (incr_at it c v n HW Hn Hnv). intros [= <-].
    unfold cells_in_range. cbn [memory cell_size set_memory].
    apply Forall_insert; [exact Hr|].
    apply Z.mod_pos_bound. apply Z.pow_pos_nonneg; lia.
  - unfold incr, bind, load_cell. rewrite Hv. now intros [= <-].
Qed.

Lemma incr_ptr_cells_in_range (c : Z) (it it' : Interpreter) :
  1 <= cell_size it -> cells_in_range it ->
  final_state (incr_ptr c it) = Some it' -> cells_in_range it'.
Proof.
  intros HW Hr. rewrite incr_ptr_unfold.
  destruct (data_ptr it + c =? Z.of_nat (length (memory it)));
    intros [= <-]; [|exact Hr].
  unfold cells_in_range. cbn [memory cell_size set_memory set_data_ptr].
  apply Forall_app. split; [exact Hr|]. apply Forall_replicate.
  split; [lia|]. apply Z.pow_pos_nonneg; lia.
Qed.

Lemma stdout_loop_memory (n : nat) :
  forall it it' : Interpreter,
    final_state (stdout_loop n it) = Some it' ->
    memory it' = memory it /\ cell_size it' = cell_size it.
Proof.
  induction n as [|k IH]; intros it it'; cbn [stdout_loop].
  - now intros [= <-].
  - unfold bind, load_cell.
    destruct (getitem (memory it) (data_ptr it)) as [v|]; [|now intros [= <-]].
    unfold chr.
    destruct ((v <? -2147483648) || (2147483647 <? v)); [now intros [= <-]|].
    destruct ((0 <=? v) && (v <? 1114112)); [|now intros [= <-]].
    unfold ret, sys_stdout_write, modify.
    destruct (surrogate v); [now intros [= <-]|]. intros H.
    now destruct (IH _ _ H).
Qed.

Lemma stdout_cells_in_range (c : Z) (it it' : Interpreter) :
  cells_in_range it ->
  final_state (stdout c it) = Some it' -> cells_in_range it'.
Proof.
  intros Hr H. destruct (stdout_loop_memory _ _ _ H) as [Hm HW].
  unfold cells_in_range. now rewrite Hm, HW.
Qed.

(** C5 fails on an Input: with 4-bit cells, reading the character [A] (code
    65) stores 65, which is not below 16. *)
Theorem stdin_breaks_cell_range :
  exists it it' : Interpreter,
    init (src ",") 4 1 [65] = Some it
    /\ cells_in_range it
    /\ run 3 it = Val tt it'
    /\ cell_size it' = 4
    /\ memory it' = [65]
    /\ ~ cells_in_range it'.
Proof.
  eexists _, _. split; [reflexivity|].
  split; [repeat constructor; simpl; lia|].
  split; [vm_compute; reflexivity|]. split; [reflexivity|].
  split; [reflexivity|].
  unfold cells_in_range. cbn [memory cell_size set_memory].
  intros H. apply Forall_cons_1 in H as [[_ H] _]. simpl in H. lia.
Qed.

(** ** Tape growth and the ends of the tape *)

(** A move that lands beyond index [L] leaves the tape as it is, and the
    pointer then addresses no cell. *)
Lemma incr_ptr_past_end (c : Z) (it : Interpreter) :
  Z.of_nat (length (memory it)) < data_ptr it + c ->
  incr_ptr c it = Val tt (set_data_ptr (data_ptr it + c) it)
  /\ load_cell (set_data_ptr (data_ptr it + c) it)
     = Exc IndexError (set_data_ptr (data_ptr it + c) it).
Proof.
  intros H. split; [apply incr_ptr_nogrow; lia|].
  unfold load_cell, getitem. cbn [memory data_ptr set_data_ptr].
  now rewrite py_index_out by lia.
Qed.

(** C3 fails when a move jumps past the end: on a tape of two cells
    [">>>+"] moves the pointer to index 3, the tape is not grown and the next
    access raises [IndexError]; on a tape of one cell [">+"] moves to index 1,
    the growth is by [1 // 2 = 0] cells and the access raises as well. *)
Theorem incr_ptr_overrun_no_growth :
  (exists it it' : Interpreter,
      init (src ">>>+") 8 2 [] = Some it
      /\ memory it = [0; 0]
      /\ incr_ptr 3 it = Val tt (set_data_ptr 3 it)
      /\ run 4 it = Exc IndexError it'
      /\ data_ptr it' = 3
      /\ memory it' = [0; 0])
  /\ (exists it it' : Interpreter,
      init (src ">+") 8 1 [] = Some it
      /\ memory it = [0]
      /\ incr_ptr 1 it = Val tt (set_memory ([0] ++ []) (set_data_ptr 1 it))
      /\ run 4 it = Exc IndexError it'
      /\ data_ptr it' = 1
      /\ memory it' = [0]).
Proof.
  split; eexists _, _; (split; [reflexivity|]); (split; [reflexivity|]);
    (split; [reflexivity|]); (split; [vm_compute; reflexivity|]);
    split; reflexivity.
Qed.

(** ** Folded reads *)

(** C4 fails for a count above 1 when that many characters are there:
    [",,"] with the input [ab] reads both characters at once and raises
    [TypeError]; the cell is not written and the input is consumed. *)
Theorem stdin_folded_read_raises :
  exists it it' : Interpreter,
    init (src ",,") 8 1 [97; 98] = Some it
    /\ parse it = Val tt (compiled [CountedToken StdIn 2] 2 it)
    /\ stdin 2 (compiled [CountedToken StdIn 2] 2 it) = Exc TypeError it'
    /\ run 3 it = Exc TypeError it'
    /\ memory it' = [0]
    /\ sys_stdin it' = [].
Proof.
  eexists _, _. split; [reflexivity|]. split; [reflexivity|].
  split; [reflexivity|]. split; [vm_compute; reflexivity|].
  split; reflexivity.
Qed.

(** ** The scan of [parse] *)

Lemma parse_frame_refl it : parse_frame it it.
Proof. now repeat split. Qed.

Lemma parse_frame_trans a b c : parse_frame a b -> parse_frame b c -> parse_frame a c.
Proof. unfold parse_frame. intuition congruence. Qed.

Lemma folded_refl it : folded it it.
Proof. split; [apply parse_frame_refl|]. auto. Qed.

Lemma folded_scanned a b : folded a b -> scanned a b.
Proof.
  intros (F & S & C & I & B). split; [auto|]. split; [now rewrite C |].
  split; [auto|]. lia.
Qed.


Lemma scanned_refl it : scanned it it.
Proof. split; [apply parse_frame_refl|]. split; [reflexivity|split; [lia|auto]]. Qed.

Lemma scanned_trans a b c : scanned a b -> scanned b c -> scanned a c.
Proof.
  intros (F1 & P1 & I1 & B1) (F2 & P2 & I2 & B2).
  assert (Hp : program b = program a) by apply F1.
  split; [eapply parse_frame_trans; eauto|].
  split; [etrans; eauto |]. split; [lia|]. rewrite Hp in B2. auto.
Qed.

Lemma Token_of_LoopEnd ch : Token_of ch = Some LoopEnd -> ch = "]"%char.
Proof.
  unfold Token_of.
  repeat match goal with
  | |- context [if ?b then _ else _] => destruct b eqn:?; try discriminate
  end.
  intros _. now apply Ascii.eqb_eq.
Qed.

Lemma pop_None {A} (l : list A) : pop l = None -> l = [].
Proof. destruct l as [|x l]; [auto|]. simpl. destruct (pop l) as [[r y]|]; discriminate. Qed.

(** The inner [while] only moves [instr_ptr]; it can raise nothing but the
    [ValueError] of [Token], and the length of the program is fuel enough. *)
Lemma fold_run_inv (fuel : nat) :
  forall (token : Token) (count : Z) (it : Interpreter),
    match fold_run fuel token count it with
    | Val _ it' => folded it it'
    | Exc e it' => folded it it' /\ e = ValueError
    | OutOfFuel => (fuel < length (program it) - 1 - instr_ptr it)%nat
    end.
Proof.
  induction fuel as [|f IH]; intros token count it;
    cbn [fold_run]; unfold bind, get;
    (destruct (instr_ptr it <? length (program it) - 1)%nat eqn:E;
      [apply Nat.ltb_lt in E | unfold ret; apply folded_refl]);
    unfold program_at;
    (destruct (program it !! (instr_ptr it + 1)%nat) as [ch|] eqn:Hch;
      [| apply lookup_ge_None_1 in Hch; lia]);
    unfold Token_call;
    (destruct (Token_of ch) as [t|]; unfold ret, raise;
      [| split; [apply folded_refl | reflexivity]]);
    (destruct (Token_eqb token t); [| apply folded_refl]).
  - unfold out_of_fuel. lia.
  - unfold modify. cbn [instr_ptr program set_instr_ptr]. rewrite Hch.
    specialize (IH token (count + step_of ch)
                  (set_instr_ptr (instr_ptr it + 1) it)).
    destruct (fold_run f token (count + step_of ch) _) as [c' it'|e it'|];
      cbn [instr_ptr program set_instr_ptr] in IH.
    + destruct IH as (F & S & C & I & B).
      repeat split; try apply F; auto; simpl in *; lia.
    + destruct IH as [(F & S & C & I & B) ->].
      repeat split; try apply F; auto; simpl in *; lia.
    + lia.
Qed.

Lemma emit_inv (x : c_token) (it : Interpreter) :
  exists it', emit x it = Val tt it' /\ scanned it it'
              /\ instr_ptr it' = instr_ptr it.
Proof.
  unfold emit, modify. eexists. split; [reflexivity|].
  destruct (stack it); simpl; (split; [|reflexivity]);
    (split; [now repeat split|]); simpl;
    (split; [|split; [lia|auto]]).
  - now apply prefix_app_r.
  - reflexivity.
Qed.

(** One branch of the loop body: [c_tokens] grows at its end at most, and
    the only script error is that of a close bracket met on an empty
    stack, raised before anything is changed. *)
Lemma parse_branch_inv (token : Token) (count : Z) (it : Interpreter) :
  match parse_branch token count it with
  | Val _ it' =>
      scanned it it'
      /\ ((instr_ptr it < length (program it))%nat ->
          (instr_ptr it' < length (program it))%nat)
  | Exc e it' =>
      scanned it it'
      /\ match e with
         | NoMatchingOpen p =>
             token = LoopEnd /\ p = instr_ptr it /\ instr_ptr it' = p
             /\ stack it' = []
         | ValueError => True
         | _ => False
         end
  | OutOfFuel => False
  end.
Proof.
  assert (Hrun : token <> LoopStart -> token <> LoopEnd ->
    match (it0 <- get ;;
           count' <- fold_run (length (program it0)) token count ;;
           emit (CountedToken token count')) it with
    | Val _ it' =>
        scanned it it'
        /\ ((instr_ptr it < length (program it))%nat ->
            (instr_ptr it' < length (program it))%nat)
    | Exc e it' => scanned it it' /\ e = ValueError
    | OutOfFuel => False
    end).
  { intros _ _. unfold bind, get.
    pose proof (fold_run_inv (length (program it)) token count it) as H.
    destruct (fold_run _ token count it) as [c' it1|e it1|].
    - destruct (emit_inv (CountedToken token c') it1) as (it2 & -> & Hs & Hi).
      pose proof (folded_scanned _ _ H) as Hs1.
      split; [eapply scanned_trans; eauto|].
      rewrite Hi. destruct H as (_ & _ & _ & _ & B). lia.
    - destruct H as [H ->]. split; [now apply folded_scanned | reflexivity].
    - lia. }
  destruct token; cbn [parse_branch];
    try (specialize (Hrun ltac:(discriminate) ltac:(discriminate));
         destruct (bind get _ it) as [[] it'|e it'|]; [exact Hrun| |exact Hrun];
         destruct Hrun as [Hs ->]; now split).
  - unfold modify. cbv beta iota. split; [|auto].
    split; [now repeat split|]. simpl. split; [reflexivity|split; [lia|auto]].
  - unfold bind, get.
    destruct (pop (stack it)) as [[rest loop]|] eqn:Hpop.
    + unfold modify. cbv beta iota.
      destruct (emit_inv (Loop loop) (set_stack rest it)) as (it2 & -> & Hs & Hi).
      split; [|now rewrite Hi].
      eapply scanned_trans; [|exact Hs].
      split; [now repeat split|]. simpl. split; [reflexivity|split; [lia|auto]].
    + unfold raise. split; [apply scanned_refl|].
      repeat split. now apply pop_None.
Qed.

(** The outer [while]: it returns only with [instr_ptr] at the end of the
    program, and raises [NoMatchingOpen p] only with [instr_ptr] on a close
    bracket at [p]. *)
Lemma parse_loop_inv (fuel : nat) :
  forall it : Interpreter,
    match parse_loop fuel it with
    | Val _ it' =>
        scanned it it' /\ (length (program it) <= instr_ptr it')%nat
    | Exc e it' =>
        scanned it it'
        /\ match e with
           | NoMatchingOpen p =>
               instr_ptr it' = p /\ program it !! p = Some "]"%char
               /\ stack it' = []
           | ValueError => True
           | _ => False
           end
    | OutOfFuel => (fuel < length (program it) - instr_ptr it)%nat
    end.
Proof.
  induction fuel as [|f IH]; intros it; cbn [parse_loop]; unfold bind, get;
    (destruct (instr_ptr it <? length (program it))%nat eqn:E;
      [apply Nat.ltb_lt in E
      | apply Nat.ltb_ge in E; unfold ret; split; [apply scanned_refl|lia]]).
  - unfold out_of_fuel. lia.
  - unfold program_at.
    destruct (program it !! instr_ptr it) as [ch|] eqn:Hch;
      [| apply lookup_ge_None_1 in Hch; lia].
    unfold Token_call.
    destruct (Token_of ch) as [token|] eqn:Htok; unfold ret, raise;
      [| split; [apply scanned_refl | exact I]].
    pose proof (parse_branch_inv token (step_of ch) it) as Hb.
    destruct (parse_branch token (step_of ch) it) as [[] it1|e it1|];
      [| | contradiction].
    + destruct Hb as [Hs1 Hlt]. specialize (Hlt E).
      unfold modify. cbv beta iota.
      set (it2 := set_instr_ptr (instr_ptr it1 + 1) it1).
      assert (Hs2 : scanned it it2).
      { eapply scanned_trans; [exact Hs1|].
        assert (Hp : program it1 = program it) by apply Hs1.
        split; [now repeat split|]. subst it2; simpl.
        split; [reflexivity|]. rewrite Hp. split; lia. }
      assert (Hp2 : program it2 = program it) by apply Hs2.
      assert (Hi2 : (instr_ptr it < instr_ptr it2)%nat).
      { subst it2; simpl. destruct Hs1 as (_ & _ & Hi & _). lia. }
      specialize (IH it2). rewrite Hp2 in IH.
      destruct (parse_loop f it2) as [[] it3|e it3|].
      * destruct IH as [Hs3 Hlen]. split; [eapply scanned_trans; eauto | exact Hlen].
      * destruct IH as [Hs3 He]. split; [eapply scanned_trans; eauto | exact He].
      * lia.
    + destruct Hb as [Hs1 He]. split; [exact Hs1|].
      destruct e; auto.
      destruct He as (-> & -> & Hi & Hst).
      repeat split; auto. now rewrite (Token_of_LoopEnd _ Htok) in Hch.
Qed.

(** All the ways [parse] can end. *)
Lemma parse_inv (it : Interpreter) :
  match parse it with
  | Val _ it' =>
      scanned it it' /\ stack it' = []
      /\ (length (program it) <= instr_ptr it')%nat
  | Exc e it' =>
      scanned it it'
      /\ match e with
         | NoMatchingOpen p =>
             instr_ptr it' = p /\ program it !! p = Some "]"%char
             /\ stack it' = []
         | NoMatchingClosed =>
             (length (program it) <= instr_ptr it')%nat /\ stack it' <> []
         | ValueError => True
         | _ => False
         end
  | OutOfFuel => False
  end.
Proof.
  unfold parse, bind, get.
  pose proof (parse_loop_inv (length (program it)) it) as H.
  destruct (parse_loop (length (program it)) it) as [[] it1|e it1|];
    [| destruct H as [Hs He]; split; [exact Hs | now destruct e] | lia].
  destruct H as [Hs Hlen].
  destruct (stack it1) eqn:Hst; unfold ret, raise.
  - split; [exact Hs|]. split; [assumption|exact Hlen].
  - split; [exact Hs|]. split; [exact Hlen|]. now rewrite Hst.
Qed.

(** [parse] needs no more steps than the program has characters. *)
Lemma parse_total (it : Interpreter) : parse it <> OutOfFuel.
Proof. pose proof (parse_inv it) as H. now destruct (parse it). Qed.

Lemma init_at_start (prog : list ascii) (c_size m_size : Z) (input : list Z)
    (it : Interpreter) :
  init prog c_size m_size input = Some it -> it = at_start prog it.
Proof.
  unfold init. destruct (c_size - 1 <? 0); [discriminate|]. now intros [= <-].
Qed.

(** C7: ["[]"], ["[[]]"] and ["[][]"] compile to the loop nodes their
    brackets describe, nested or side by side; ["]"], ["["] and ["[[]"] make
    [parse] raise one of its two script errors.  A close bracket without an
    open one raises with [instr_ptr] still on that bracket, whatever follows
    it; an open bracket left without a close one raises only once
    [instr_ptr] has reached the end of the program. *)
Theorem bracket_matching :
  (forall it : Interpreter,
      parse (at_start (src "[]") it)
      = Val tt (compiled [Loop []] 2 (at_start (src "[]") it)))
  /\ (forall it : Interpreter,
      parse (at_start (src "[[]]") it)
      = Val tt (compiled [Loop [Loop []]] 4 (at_start (src "[[]]") it)))
  /\ (forall it : Interpreter,
      parse (at_start (src "[][]") it)
      = Val tt (compiled [Loop []; Loop []] 4 (at_start (src "[][]") it)))
  /\ (forall it : Interpreter,
      parse (at_start (src "]") it)
      = Exc (NoMatchingOpen 0) (at_start (src "]") it))
  /\ (forall it : Interpreter,
      parse (at_start (src "[") it)
      = Exc NoMatchingClosed
          (set_stack [[]] (set_instr_ptr 1 (at_start (src "[") it))))
  /\ (forall it : Interpreter,
      parse (at_start (src "[[]") it)
      = Exc NoMatchingClosed
          (set_stack [[Loop []]] (set_instr_ptr 3 (at_start (src "[[]") it))))
  /\ (forall it : Interpreter,
      parse (at_start (src "][") it)
      = Exc (NoMatchingOpen 0) (at_start (src "][") it))
  /\ is_SyntaxError (NoMatchingOpen 0) = true
  /\ is_SyntaxError NoMatchingClosed = true
  /\ (forall (it it' : Interpreter) (p : nat),
      parse it = Exc (NoMatchingOpen p) it' ->
      instr_ptr it' = p /\ (p < length (program it))%nat
      /\ program it !! p = Some "]"%char /\ stack it' = [])
  /\ (forall it it' : Interpreter,
      parse it = Exc NoMatchingClosed it' ->
      (length (program it) <= instr_ptr it')%nat /\ stack it' <> []
      /\ ((instr_ptr it <= length (program it))%nat ->
          instr_ptr it' = length (program it))).
Proof.
  repeat match goal with
  | |- (forall it : Interpreter, parse _ = _) /\ _ =>
      split; [intros []; vm_compute; reflexivity|]
  end.
  split; [reflexivity|]. split; [reflexivity|]. split.
  - intros it it' p H. pose proof (parse_inv it) as Hinv. rewrite H in Hinv.
    destruct Hinv as (_ & Hi & Hp & Hs).
    repeat split; auto. now apply (lookup_lt_Some _ _ _ Hp).
  - intros it it' H. pose proof (parse_inv it) as Hinv. rewrite H in Hinv.
    destruct Hinv as ((_ & _ & _ & Hb) & Hlen & Hs).
    repeat split; auto. intros Hle. specialize (Hb Hle). lia.
Qed.

(** C7 on the programs ["+]+"] and ["[+"]. *)
Lemma bracket_matching_witness :
  (exists it',
      parse (at_start (src "+]+") (one_cell 8 0)) = Exc (NoMatchingOpen 1) it'
      /\ instr_ptr it' = 1%nat /\ (1 < length (src "+]+"))%nat
      /\ src "+]+" !! 1%nat = Some "]"%char /\ stack it' = [])
  /\ (exists it',
      parse (at_start (src "[+") (one_cell 8 0)) = Exc NoMatchingClosed it'
      /\ (length (src "[+") <= instr_ptr it')%nat /\ stack it' <> []
      /\ ((0 <= length (src "[+"))%nat -> instr_ptr it' = length (src "[+"))).
Proof.
  split.
  - eexists. split; [vm_compute; reflexivity|].
    apply (proj1 (proj2 (proj2 (proj2 (proj2 (proj2 (proj2 (proj2 (proj2
             (proj2 bracket_matching)))))))))
           (at_start (src "+]+") (one_cell 8 0))).
    vm_compute; reflexivity.
  - eexists. split; [vm_compute; reflexivity|].
    apply (proj2 (proj2 (proj2 (proj2 (proj2 (proj2 (proj2 (proj2 (proj2
             (proj2 bracket_matching)))))))))
           (at_start (src "[+") (one_cell 8 0))).
    vm_compute; reflexivity.
Defined.

(** ** What a failed [parse] leaves behind *)

(** C8 fails as stated: after [parse] has raised on ["+]"], and on ["+["],
    the [c_tokens] attribute holds the node compiled before the failure. *)
Lemma parse_failure_retains_nodes :
  (exists it it' : Interpreter,
      init (src "+]") 8 1 [] = Some it
      /\ c_tokens it = []
      /\ parse it = Exc (NoMatchingOpen 1) it'
      /\ is_SyntaxError (NoMatchingOpen 1) = true
      /\ c_tokens it' = [CountedToken Incr 1]
      /\ c_tokens it' <> [])
  /\ (exists it it' : Interpreter,
      init (src "+[") 8 1 [] = Some it
      /\ c_tokens it = []
      /\ parse it = Exc NoMatchingClosed it'
      /\ is_SyntaxError NoMatchingClosed = true
      /\ c_tokens it' = [CountedToken Incr 1]
      /\ c_tokens it' <> []).
Proof.
  split; eexists _, _; (split; [reflexivity|]); (split; [reflexivity|]);
    (split; [vm_compute; reflexivity|]); (split; [reflexivity|]);
    (split; [reflexivity|]); discriminate.
Qed.

(** ** Folding of runs *)

Lemma Token_eqb_refl t : Token_eqb t t = true.
Proof. now destruct t. Qed.

Lemma net_steps_cons ch l : net_steps (ch :: l) = step_of ch + net_steps l.
Proof. reflexivity. Qed.

Section Run.
Variables (stk : list (list c_token)) (ct : list c_token) (dp W mi : Z)
          (mem sin sout : list Z) (prog : list ascii) (token : Token).
Hypothesis same_token : Forall (fun ch => Token_of ch = Some token) prog.

Local Abbreviation scanning ct ip :=
  (mkInterpreter stk ct dp ip prog W mem mi sin sout).

(** When every character after [ip] belongs to [token], the inner [while]
    runs to the last character and adds up all their steps. *)
Lemma fold_run_same (fuel : nat) :
  forall (ip : nat) (count : Z),
    (ip < length prog)%nat ->
    (length prog - 1 - ip <= fuel)%nat ->
    fold_run fuel token count (scanning ct ip)
    = Val (count + net_steps (drop (S ip) prog))
          (scanning ct (length prog - 1)%nat).
Proof.
  induction fuel as [|f IH]; intros ip count Hip Hfuel;
    cbn [fold_run]; unfold bind, get; cbn [instr_ptr program];
    (destruct (ip <? length prog - 1)%nat eqn:E;
      [apply Nat.ltb_lt in E
      | apply Nat.ltb_ge in E; unfold ret;
        rewrite drop_ge by lia; cbn [net_steps foldr]; rewrite Z.add_0_r;
        now replace (length prog - 1)%nat with ip by lia]).
  - lia.
  - destruct (lookup_lt_is_Some_2 prog (ip + 1)%nat ltac:(lia)) as [ch Hch].
    assert (Htok : Token_of ch = Some token)
      by (eapply (proj1 (Forall_lookup _ _) same_token); eauto).
    unfold program_at, Token_call. cbn [program instr_ptr]. rewrite Hch, Htok.
    unfold ret. rewrite Token_eqb_refl. unfold modify.
    cbn [set_instr_ptr instr_ptr program stack c_tokens data_ptr cell_size
         memory max_int sys_stdin sys_stdout]. rewrite Hch.
    rewrite (IH (ip + 1)%nat) by lia.
    replace (S ip) with (ip + 1)%nat by lia.
    rewrite (drop_S _ _ _ Hch), net_steps_cons.
    replace (S (ip + 1)) with (ip + 1 + 1)%nat by lia.
    f_equal. lia.
Qed.
End Run.

Lemma parse_loop_done (fuel : nat) (it : Interpreter) :
  (length (program it) <= instr_ptr it)%nat -> parse_loop fuel it = Val tt it.
Proof.
  intros H. apply Nat.ltb_ge in H.
  destruct fuel; cbn [parse_loop]; unfold bind, get; now rewrite H.
Qed.

(** A non-empty program made of one kind of token, no bracket, compiles to
    one counted node. *)
Lemma parse_run (it : Interpreter) (prog : list ascii) (token : Token) :
  prog <> [] ->
  token <> LoopStart -> token <> LoopEnd ->
  Forall (fun ch => Token_of ch = Some token) prog ->
  parse (at_start prog it)
  = Val tt (compiled [CountedToken token (net_steps prog)] (length prog)
              (at_start prog it)).
Proof.
  intros Hne Hs1 Hs2 Hall.
  destruct it as [stk ct dp ip prg W mem mi sin sout].
  unfold at_start, compiled.
  cbn [set_c_tokens set_instr_ptr stack c_tokens data_ptr instr_ptr program
       cell_size memory max_int sys_stdin sys_stdout].
  destruct prog as [|ch rest]; [contradiction|].
  assert (Hch : Token_of ch = Some token) by now inversion Hall.
  unfold parse, bind, get. cbn [program length parse_loop].
  unfold bind, get. cbn [instr_ptr program length].
  replace (0 <? S (length rest))%nat with true by reflexivity.
  unfold program_at. cbn [program instr_ptr lookup list_lookup].
  unfold Token_call. rewrite Hch. unfold ret.
  assert (Hbranch :
    parse_branch token (step_of ch)
      (mkInterpreter [] [] dp 0 (ch :: rest) W mem mi sin sout)
    = Val tt (mkInterpreter [] [CountedToken token (net_steps (ch :: rest))]
                dp (length rest) (ch :: rest) W mem mi sin sout)).
  { assert (Hfold := fold_run_same [] [] dp W mi mem sin sout (ch :: rest) token
                       Hall (length (ch :: rest)) 0 (step_of ch)
                       ltac:(simpl; lia) ltac:(simpl; lia)).
    cbn [drop] in Hfold. rewrite <- net_steps_cons in Hfold.
    replace (length (ch :: rest) - 1)%nat with (length rest) in Hfold
      by (simpl; lia).
    destruct token; try contradiction; cbn [parse_branch]; unfold bind, get;
      cbn [program]; rewrite Hfold; reflexivity. }
  rewrite Hbranch. unfold modify.
  cbn [set_instr_ptr instr_ptr program stack c_tokens data_ptr cell_size
       memory max_int sys_stdin sys_stdout].
  rewrite parse_loop_done by (simpl; lia).
  cbn [stack set_c_tokens set_instr_ptr instr_ptr program c_tokens data_ptr
       cell_size memory max_int sys_stdin sys_stdout length].
  now replace (length rest + 1)%nat with (S (length rest)) by lia.
Qed.

(** C2: a non-empty source whose characters are all movement symbols, or all
    arithmetic symbols, compiles to exactly one counted node of that kind
    whose count is the sum of the steps of the characters, [+1] for [>] and
    [+], [-1] for [<] and [-].  ["+-+"] gives one [Incr] node of count 1, and
    runs of net step zero give one node of count 0. *)
Theorem fold_correctness :
  (forall (it : Interpreter) (prog : list ascii) (kind : Token),
      prog <> [] ->
      kind = IncrPtr \/ kind = Incr ->
      Forall (fun ch => Token_of ch = Some kind) prog ->
      parse (at_start prog it)
      = Val tt (compiled [CountedToken kind (net_steps prog)] (length prog)
                  (at_start prog it)))
  /\ (step_of ">" = 1 /\ step_of "+" = 1 /\ step_of "<" = -1 /\ step_of "-" = -1)
  /\ (forall it : Interpreter,
      parse (at_start (src "+-+") it)
      = Val tt (compiled [CountedToken Incr 1] 3 (at_start (src "+-+") it)))
  /\ (forall it : Interpreter,
      parse (at_start (src "+-") it)
      = Val tt (compiled [CountedToken Incr 0] 2 (at_start (src "+-") it)))
  /\ (forall it : Interpreter,
      parse (at_start (src "><<>") it)
      = Val tt (compiled [CountedToken IncrPtr 0] 4 (at_start (src "><<>") it))).
Proof.
  split.
  - intros it prog kind Hne Hk Hall.
    apply parse_run; auto; destruct Hk as [-> | ->]; discriminate.
  - split; [now repeat split|].
    repeat split; intros []; vm_compute; reflexivity.
Qed.

(** C2 on the run ["<<><"], of net step -2. *)
Lemma fold_correctness_witness :
  parse (at_start (src "<<><") (one_cell 8 0))
  = Val tt (compiled [CountedToken IncrPtr (net_steps (src "<<><"))]
              (length (src "<<><")) (at_start (src "<<><") (one_cell 8 0)))
  /\ net_steps (src "<<><") = -2.
Proof.
  split; [|reflexivity].
  apply (proj1 fold_correctness (one_cell 8 0) (src "<<><") IncrPtr).
  - discriminate.
  - left; reflexivity.
  - repeat constructor.
Defined.

(** ** The transfer loop [[<+>-]] *)

Section Transfer.
Variables (st : list (list c_token)) (ct : list c_token) (ip : nat)
          (prog : list ascii) (W mi : Z) (tl sin sout : list Z).
Hypothesis W_pos : 1 <= W.

Local Abbreviation T a b p := (tape2 st ct ip prog W mi tl sin sout a b p).

Lemma tape2_move (a b p c : Z) :
  0 <= p + c <= 1 -> incr_ptr c (T a b p) = Val tt (T a b (p + c)).
Proof.
  intros H. rewrite incr_ptr_nogrow; [reflexivity|]. simpl. lia.
Qed.

Lemma tape2_incr0 (a b c : Z) :
  incr c (T a b 0) = Val tt (T ((a + c) mod 2 ^ W) b 0).
Proof.
  rewrite (incr_at _ c a 0%nat); [reflexivity|assumption| |reflexivity].
  apply py_index_nonneg. simpl. lia.
Qed.

Lemma tape2_incr1 (a b c : Z) :
  incr c (T a b 1) = Val tt (T a ((b + c) mod 2 ^ W) 1).
Proof.
  rewrite (incr_at _ c b 1%nat); [reflexivity|assumption| |reflexivity].
  apply (py_index_nonneg _ 1). simpl. lia.
Qed.

Lemma tape2_load1 (a b : Z) : load_cell (T a b 1) = Val b (T a b 1).
Proof.
  apply (load_cell_at _ 1%nat); [|reflexivity].
  apply (py_index_nonneg _ 1). simpl. lia.
Qed.

(** One pass through the body moves one unit from cell 1 to cell 0. *)
Lemma transfer_once (a b : Z) :
  execute 5 transfer_body (T a b 1)
  = Val tt (T ((a + 1) mod 2 ^ W) ((b - 1) mod 2 ^ W) 1).
Proof.
  unfold transfer_body. simpl execute. unfold bind.
  rewrite tape2_move by lia. simpl Z.add.
  rewrite tape2_incr0. rewrite tape2_move by lia. simpl Z.add.
  rewrite tape2_incr1. reflexivity.
Qed.

(** The loop ends with cell 1 at zero and its value added to cell 0. *)
Lemma transfer_loop (n : nat) :
  forall a : Z,
    0 <= a < 2 ^ W -> Z.of_nat n < 2 ^ W ->
    execute (n + 6) [Loop transfer_body] (T a (Z.of_nat n) 1)
    = Val tt (T ((a + Z.of_nat n) mod 2 ^ W) 0 1).
Proof.
  induction n as [|k IH]; intros a Ha Hn.
  - simpl execute. unfold bind. rewrite tape2_load1. simpl.
    rewrite Z.add_0_r, Z.mod_small by assumption. reflexivity.
  - replace (S k + 6)%nat with (S (k + 6)) by lia.
    cbn [execute]. unfold bind. rewrite tape2_load1.
    replace (Z.of_nat (S k) =? 0) with false by (symmetry; apply Z.eqb_neq; lia).
    rewrite (execute_more 5 (k + 6) _ _ _ ltac:(lia) (transfer_once _ _)).
    replace ((Z.of_nat (S k) - 1) mod 2 ^ W) with (Z.of_nat k)
      by (rewrite Z.mod_small; lia).
    rewrite IH; [|apply Z.mod_pos_bound; lia|lia].
    rewrite Zplus_mod_idemp_l.
    now replace (a + 1 + Z.of_nat k) with (a + Z.of_nat (S k)) by lia.
Qed.
End Transfer.

(** C1: running the compiled form of ["++>+++[<+>-]"] with 8-bit cells on a
    zeroed tape of at least two cells terminates normally, with cell 0 equal
    to 5, cell 1 equal to 0 (the other cells still zero) and the pointer at
    index 1; nothing is read or written. *)
Theorem transfer_end_to_end (m_size : Z) (input : list Z) :
  2 <= m_size ->
  exists (fuel : nat) (it it' : Interpreter),
    init (src "++>+++[<+>-]") 8 m_size input = Some it
    /\ memory it = replicate (Z.to_nat m_size) 0
    /\ run fuel it = Val tt it'
    /\ memory it' = 5 :: 0 :: replicate (Z.to_nat m_size - 2) 0
    /\ getitem (memory it') 0 = Some 5
    /\ getitem (memory it') 1 = Some 0
    /\ data_ptr it' = 1
    /\ sys_stdin it' = input /\ sys_stdout it' = [].
Proof.
  intros Hm.
  set (prog := src "++>+++[<+>-]").
  set (tl := replicate (Z.to_nat m_size - 2) 0).
  set (code := [CountedToken Incr 2; CountedToken IncrPtr 1; CountedToken Incr 3]
               ++ [Loop transfer_body]).
  assert (Hmem : replicate (Z.to_nat m_size) 0 = 0 :: 0 :: tl).
  { subst tl.
    replace (Z.to_nat m_size) with (S (S (Z.to_nat m_size - 2))) at 1 by lia.
    reflexivity. }
  exists (4 + (3 + 6))%nat.
  exists (tape2 [] [] 0 prog 8 256 tl input [] 0 0 0).
  exists (tape2 [] code 12 prog 8 256 tl input [] 5 0 1).
  split; [unfold init, tape2; simpl; now rewrite Hmem|].
  split; [now rewrite Hmem|].
  split; [|repeat split; unfold getitem;
           rewrite ?py_index_nonneg by (simpl; lia); reflexivity].
  assert (Hparse : parse (tape2 [] [] 0 prog 8 256 tl input [] 0 0 0)
                   = Val tt (tape2 [] code 12 prog 8 256 tl input [] 0 0 0))
    by (vm_compute; reflexivity).
  unfold run, bind. rewrite Hparse. unfold get. cbn [c_tokens tape2].
  apply (execute_app 4 (3 + 6) _ _ _
           (tape2 [] code 12 prog 8 256 tl input [] 2 3 1)).
  - simpl execute. unfold bind.
    rewrite tape2_incr0 by lia. rewrite tape2_move by lia.
    rewrite tape2_incr1 by lia. reflexivity.
  - apply (transfer_loop [] code 12 prog 8 256 tl input [] ltac:(lia) 3 2);
      simpl; lia.
Qed.

(** C1 at the smallest tape, two cells. *)
Lemma transfer_end_to_end_witness :
  exists (fuel : nat) (it it' : Interpreter),
    init (src "++>+++[<+>-]") 8 2 [] = Some it
    /\ memory it = replicate (Z.to_nat 2) 0
    /\ run fuel it = Val tt it'
    /\ memory it' = 5 :: 0 :: replicate (Z.to_nat 2 - 2) 0
    /\ getitem (memory it') 0 = Some 5
    /\ getitem (memory it') 1 = Some 0
    /\ data_ptr it' = 1
    /\ sys_stdin it' = [] /\ sys_stdout it' = [].
Proof. apply (transfer_end_to_end 2 []). lia. Defined.

(** ** More on the scan of [parse] *)

Lemma Token_eqb_eq (a b : Token) : Token_eqb a b = true -> a = b.
Proof. now destruct a, b. Qed.

Lemma set_instr_ptr_same (it : Interpreter) : set_instr_ptr (instr_ptr it) it = it.
Proof. now destruct it. Qed.

(** Where the inner [while] stops, what it has passed and what it has
    added up. *)
Lemma fold_run_post (fuel : nat) :
  forall (token : Token) (count : Z) (it : Interpreter),
    match fold_run fuel token count it with
    | Val count' it' =>
        it' = set_instr_ptr (instr_ptr it') it
        /\ (instr_ptr it <= instr_ptr it')%nat
        /\ (forall (i : nat) (ch : ascii),
              (instr_ptr it < i <= instr_ptr it')%nat ->
              program it !! i = Some ch -> Token_of ch = Some token)
        /\ (forall ch : ascii,
              program it !! S (instr_ptr it') = Some ch ->
              Token_of ch <> Some token)
        /\ count'
           = count + net_steps (take (instr_ptr it' - instr_ptr it)
                                  (drop (S (instr_ptr it)) (program it)))
    | Exc e it' =>
        exists (i : nat) (ch : ascii),
          program it !! i = Some ch /\ Token_of ch = None
    | OutOfFuel => (fuel < length (program it) - 1 - instr_ptr it)%nat
    end.
Proof.
  assert (Hstop : forall (token : Token) (count : Z) (it : Interpreter),
    (forall ch, program it !! S (instr_ptr it) = Some ch ->
                Token_of ch <> Some token) ->
    it = set_instr_ptr (instr_ptr it) it
    /\ (instr_ptr it <= instr_ptr it)%nat
    /\ (forall (i : nat) (ch : ascii),
          (instr_ptr it < i <= instr_ptr it)%nat ->
          program it !! i = Some ch -> Token_of ch = Some token)
    /\ (forall ch : ascii,
          program it !! S (instr_ptr it) = Some ch ->
          Token_of ch <> Some token)
    /\ count
       = count + net_steps (take (instr_ptr it - instr_ptr it)
                              (drop (S (instr_ptr it)) (program it)))).
  { intros token count it Hnext. split; [now rewrite set_instr_ptr_same|].
    split; [lia|]. split; [intros i ch Hi; lia|]. split; [exact Hnext|].
    rewrite Nat.sub_diag. rewrite take_0. cbn [net_steps foldr]. lia. }
  induction fuel as [|f IH]; intros token count it;
    cbn [fold_run]; unfold bind, get;
    (destruct (instr_ptr it <? length (program it) - 1)%nat eqn:E;
      [apply Nat.ltb_lt in E
      | apply Nat.ltb_ge in E; unfold ret; apply Hstop; intros ch Hch;
        apply lookup_lt_Some in Hch; lia]);
    unfold program_at;
    (destruct (program it !! (instr_ptr it + 1)%nat) as [ch|] eqn:Hch;
      [| apply lookup_ge_None_1 in Hch; lia]);
    unfold Token_call;
    (destruct (Token_of ch) as [t|] eqn:Ht; unfold ret, raise;
      [| now exists (instr_ptr it + 1)%nat, ch]);
    (destruct (Token_eqb token t) eqn:Heq;
      [apply Token_eqb_eq in Heq; subst t
      | apply Hstop; intros ch' Hch';
        replace (S (instr_ptr it)) with (instr_ptr it + 1)%nat in Hch' by lia;
        rewrite Hch in Hch'; injection Hch' as <-; rewrite Ht;
        intros [= <-]; now rewrite Token_eqb_refl in Heq]).
  - unfold out_of_fuel. lia.
  - unfold modify. cbn [instr_ptr program set_instr_ptr]. rewrite Hch.
    specialize (IH token (count + step_of ch)
                  (set_instr_ptr (instr_ptr it + 1) it)).
    destruct (fold_run f token (count + step_of ch) _) as [c' it'|e it'|];
      cbn [instr_ptr program set_instr_ptr] in IH; [| exact IH | lia].
    destruct IH as (Hit & Hle & Hspan & Hnext & Hcount).
    split; [rewrite Hit at 1; reflexivity|]. split; [lia|].
    split; [|split; [exact Hnext|]].
    + intros i ch' Hi Hi'.
      destruct (decide (i = instr_ptr it + 1)%nat) as [->|Hne].
      * rewrite Hch in Hi'. now injection Hi' as <-.
      * apply (Hspan i ch'); [lia | exact Hi'].
    + rewrite Hcount.
      replace (S (instr_ptr it)) with (instr_ptr it + 1)%nat by lia.
      rewrite (drop_S _ _ _ Hch).
      replace (instr_ptr it' - instr_ptr it)%nat
        with (S (instr_ptr it' - (instr_ptr it + 1)))%nat by lia.
      cbn [take]. rewrite net_steps_cons.
      replace (S (instr_ptr it + 1)) with (S (instr_ptr it + 1))%nat by lia.
      lia.
Qed.

Lemma Token_of_brackets (ch : ascii) (t : Token) :
  Token_of ch = Some t ->
  Ascii.eqb ch "[" = Token_eqb t LoopStart
  /\ Ascii.eqb ch "]" = Token_eqb t LoopEnd.
Proof.
  unfold Token_of.
  repeat match goal with
  | |- context [Ascii.eqb ch ?c] =>
      destruct (Ascii.eqb_spec ch c) as [->|]; cbn [orb]
  end; intros [= <-]; now split.
Qed.

Lemma is_instruction_Token (ch : ascii) :
  is_instruction ch = true <-> Token_of ch <> None.
Proof.
  unfold is_instruction, instructions, Token_of. cbn [src list_ascii_of_string existsb].
  repeat match goal with
  | |- context [Ascii.eqb ch ?c] =>
      destruct (Ascii.eqb_spec ch c) as [->|]; cbn [orb]
  end; split; (discriminate || congruence || auto).
Qed.

Lemma pop_Some {A} (l r : list A) (y : A) :
  pop l = Some (r, y) -> l = r ++ [y].
Proof.
  revert r. induction l as [|x l IH]; intros r; [discriminate|]. cbn [pop].
  destruct (pop l) as [[r' y']|] eqn:E.
  - intros [= <- <-]. now rewrite (IH r' eq_refl).
  - intros [= <- <-]. now rewrite (pop_None l E).
Qed.

Lemma pop_snoc {A} (r : list A) (y : A) : pop (r ++ [y]) = Some (r, y).
Proof.
  induction r as [|x r IH]; [reflexivity|].
  cbn [app pop]. now rewrite IH.
Qed.

Lemma append_top_snoc (x : c_token) (r : list (list c_token))
    (b : list c_token) :
  append_top x (r ++ [b]) = r ++ [b ++ [x]].
Proof.
  induction r as [|a r IH]; [reflexivity|].
  cbn [app append_top]. rewrite IH. now destruct r.
Qed.

(** Characters that are no brackets do not count in the scan. *)
Lemma bracket_scan_span (prog : list ascii) (d : nat) (n : nat) :
  forall a : nat,
    (a + n <= length prog)%nat ->
    (forall (i : nat) (ch : ascii),
        (a <= i < a + n)%nat -> prog !! i = Some ch ->
        Ascii.eqb ch "[" = false /\ Ascii.eqb ch "]" = false) ->
    bracket_scan d a (drop a prog) = bracket_scan d (a + n) (drop (a + n) prog).
Proof.
  induction n as [|k IH]; intros a Hlen Hspan.
  - now rewrite Nat.add_0_r.
  - destruct (lookup_lt_is_Some_2 prog a ltac:(lia)) as [ch Hch].
    rewrite (drop_S _ _ _ Hch). cbn [bracket_scan].
    destruct (Hspan a ch ltac:(lia) Hch) as [-> ->].
    rewrite (IH (S a)) by (try lia; intros i c Hi; apply Hspan; lia).
    now replace (S a + k)%nat with (a + S k)%nat by lia.
Qed.

(** What [emit] leaves alone. *)
Lemma emit_stack (x : c_token) (it : Interpreter) :
  exists it' : Interpreter,
    emit x it = Val tt it'
    /\ length (stack it') = length (stack it)
    /\ instr_ptr it' = instr_ptr it /\ program it' = program it.
Proof.
  unfold emit, modify. eexists. split; [reflexivity|].
  destruct (stack it) as [|b st] eqn:E; cbn [stack set_stack set_c_tokens
    instr_ptr program]; rewrite ?E; repeat split.
  destruct (pop (b :: st)) as [[r y]|] eqn:Hp.
  - apply pop_Some in Hp. rewrite Hp, append_top_snoc, !length_app. reflexivity.
  - apply pop_None in Hp. discriminate.
Qed.

(** The outer [while] on a text of instruction characters ends as the
    brackets from [instr_ptr] on decide, the open loops being those on the
    stack. *)
Lemma parse_loop_brackets (fuel : nat) :
  forall it : Interpreter,
    Forall (fun ch => is_instruction ch = true) (program it) ->
    (length (program it) - instr_ptr it <= fuel)%nat ->
    match bracket_scan (length (stack it)) (instr_ptr it)
            (drop (instr_ptr it) (program it)) with
    | inl p => exists it', parse_loop fuel it = Exc (NoMatchingOpen p) it'
    | inr d =>
        exists it', parse_loop fuel it = Val tt it' /\ length (stack it') = d
    end.
Proof.
  induction fuel as [|f IH]; intros it Hclean Hfuel;
    cbn [parse_loop]; unfold bind, get;
    (destruct (instr_ptr it <? length (program it))%nat eqn:E;
      [apply Nat.ltb_lt in E
      | apply Nat.ltb_ge in E; rewrite drop_ge by lia; cbn [bracket_scan];
        now exists it]); [lia|].
  destruct (lookup_lt_is_Some_2 (program it) (instr_ptr it) E) as [ch Hch].
  rewrite (drop_S _ _ _ Hch). unfold program_at. rewrite Hch.
  assert (Hin : is_instruction ch = true)
    by (eapply (proj1 (Forall_lookup _ _) Hclean); eauto).
  apply is_instruction_Token in Hin.
  unfold Token_call. destruct (Token_of ch) as [token|] eqn:Htok; [|congruence].
  unfold ret. destruct (Token_of_brackets ch token Htok) as [Hopen Hclose].
  cbn [bracket_scan]. rewrite Hopen, Hclose.
  assert (Hnext : forall it2 : Interpreter,
    program it2 = program it -> (instr_ptr it < instr_ptr it2)%nat ->
    match bracket_scan (length (stack it2)) (instr_ptr it2)
            (drop (instr_ptr it2) (program it)) with
    | inl p => exists it', parse_loop f it2 = Exc (NoMatchingOpen p) it'
    | inr d =>
        exists it', parse_loop f it2 = Val tt it' /\ length (stack it') = d
    end).
  { intros it2 Hp Hi. specialize (IH it2). rewrite Hp in IH.
    apply IH; [exact Hclean | lia]. }
  assert (Hrun :
    Token_eqb token LoopStart = false -> Token_eqb token LoopEnd = false ->
    parse_branch token (step_of ch)
    = (it0 <- get ;;
       count' <- fold_run (length (program it0)) token (step_of ch) ;;
       emit (CountedToken token count')) ->
    match
      (if Token_eqb token LoopStart
       then bracket_scan (S (length (stack it))) (S (instr_ptr it))
              (drop (S (instr_ptr it)) (program it))
       else if Token_eqb token LoopEnd
       then match length (stack it) with
            | O => inl (instr_ptr it)
            | S d => bracket_scan d (S (instr_ptr it))
                       (drop (S (instr_ptr it)) (program it))
            end
       else bracket_scan (length (stack it)) (S (instr_ptr it))
              (drop (S (instr_ptr it)) (program it)))
    with
    | inl p =>
        exists it',
          (parse_branch token (step_of ch) ;;
           modify (fun it => set_instr_ptr (instr_ptr it + 1) it) ;;
           parse_loop f) it = Exc (NoMatchingOpen p) it'
    | inr d =>
        exists it',
          (parse_branch token (step_of ch) ;;
           modify (fun it => set_instr_ptr (instr_ptr it + 1) it) ;;
           parse_loop f) it = Val tt it' /\ length (stack it') = d
    end).
  { intros H1 H2 ->. rewrite H1, H2. unfold bind, get.
    pose proof (fold_run_post (length (program it)) token (step_of ch) it) as Hpost.
    pose proof (fold_run_inv (length (program it)) token (step_of ch) it) as Hinv.
    destruct (fold_run (length (program it)) token (step_of ch) it)
      as [count' it1|e it1|];
      [| destruct Hpost as (i & c & Hi & Hc);
         assert (Hci : is_instruction c = true)
           by (eapply (proj1 (Forall_lookup _ _) Hclean); eauto);
         apply is_instruction_Token in Hci; contradiction
       | lia].
    destruct Hpost as (Hit & Hle & Hspan & _ & _).
    destruct Hinv as ((_ & Hp1 & _) & _ & _ & _ & Hbound).
    destruct (emit_stack (CountedToken token count') it1)
      as (it2 & -> & Hs & Hi & Hp).
    unfold bind, modify. cbv beta iota.
    specialize (Hnext (set_instr_ptr (instr_ptr it2 + 1) it2)
                  ltac:(cbn [program set_instr_ptr]; congruence)).
    cbn [stack instr_ptr set_instr_ptr] in Hnext.
    assert (Hst : length (stack it1) = length (stack it))
      by (rewrite Hit; reflexivity).
    rewrite Hs, Hst, Hi in Hnext. rewrite Hi.
    rewrite (bracket_scan_span (program it) (length (stack it))
               (instr_ptr it1 - instr_ptr it) (S (instr_ptr it)))
      by (try lia; intros i c Hrange Hc;
          assert (Htc : Token_of c = Some token)
            by (apply (Hspan i c); [lia|exact Hc]);
          destruct (Token_of_brackets c token Htc) as [-> ->];
          split; assumption).
    replace (S (instr_ptr it) + (instr_ptr it1 - instr_ptr it))%nat
      with (instr_ptr it1 + 1)%nat by lia.
    apply Hnext. lia. }
  destruct token; cbn [Token_eqb parse_branch].
  5: { (* LoopStart *)
    unfold modify. cbv beta iota.
    specialize (Hnext (set_instr_ptr (instr_ptr it + 1)
                         (set_stack (stack it ++ [[]]) it)) eq_refl).
    cbn [stack instr_ptr set_instr_ptr set_stack] in Hnext.
    rewrite length_app in Hnext. cbn [length] in Hnext.
    replace (length (stack it) + 1)%nat with (S (length (stack it))) in Hnext by lia.
    replace (instr_ptr it + 1)%nat with (S (instr_ptr it)) in Hnext by lia.
    cbn [instr_ptr set_stack].
    replace (instr_ptr it + 1)%nat with (S (instr_ptr it)) by lia.
    apply Hnext. lia. }
  5: { (* LoopEnd *)
    unfold bind, get.
    destruct (pop (stack it)) as [[rest loop]|] eqn:Hpop.
    - apply pop_Some in Hpop. rewrite Hpop, length_app. cbn [length].
      replace (length rest + 1)%nat with (S (length rest)) by lia.
      unfold modify. cbv beta iota.
      destruct (emit_stack (Loop loop) (set_stack rest it))
        as (it1 & -> & Hs & Hi & Hp).
      cbn [stack instr_ptr program set_stack] in Hs, Hi, Hp.
      specialize (Hnext (set_instr_ptr (instr_ptr it1 + 1) it1) Hp).
      cbn [stack instr_ptr set_instr_ptr] in Hnext.
      rewrite Hs, Hi in Hnext.
      replace (instr_ptr it + 1)%nat with (S (instr_ptr it)) in Hnext by lia.
      rewrite Hi.
      replace (instr_ptr it + 1)%nat with (S (instr_ptr it)) by lia.
      apply Hnext. lia.
    - apply pop_None in Hpop. rewrite Hpop. cbn [length]. unfold raise.
      now eexists. }
  all: apply Hrun; reflexivity.
Qed.

Lemma clean_instructions (text : list ascii) :
  Forall (fun ch => is_instruction ch = true) (clean text).
Proof.
  apply List.Forall_forall. intros ch Hin. unfold clean in Hin.
  now apply List.filter_In in Hin.
Qed.

(** On a text of instruction characters [parse] ends as its brackets
    decide. *)
Lemma parse_brackets (it : Interpreter) (prog : list ascii) :
  Forall (fun ch => is_instruction ch = true) prog ->
  match bracket_scan 0 0 prog with
  | inl p => exists it', parse (at_start prog it) = Exc (NoMatchingOpen p) it'
  | inr O => exists it', parse (at_start prog it) = Val tt it'
  | inr (S d) =>
      exists it',
        parse (at_start prog it) = Exc NoMatchingClosed it'
        /\ length (stack it') = S d
  end.
Proof.
  intros Hclean.
  pose proof (parse_loop_brackets (length prog) (at_start prog it) Hclean
                ltac:(cbn [program at_start instr_ptr]; lia)) as H.
  unfold at_start in H. simpl in H. rewrite drop_0 in H.
  unfold parse, bind, get, at_start. cbn [program].
  destruct (bracket_scan 0 0 prog) as [p|d].
  - destruct H as (it' & ->). now exists it'.
  - destruct H as (it' & -> & Hd).
    destruct (stack it') as [|b st] eqn:Hst; cbn [length] in Hd; subst d;
      unfold ret, raise; exists it'; [reflexivity|].
    split; [reflexivity|]. now rewrite Hst.
Qed.

(** X1: the text [main] hands over consists of instruction characters only,
    so that the only exceptions [parse] can raise on it are its two script
    errors. *)
Theorem cleaned_text_parses (text : list ascii) (it : Interpreter) :
  Forall (fun ch => Token_of ch <> None) (clean text)
  /\ parse (at_start (clean text) it) <> OutOfFuel
  /\ (forall (e : exn) (it' : Interpreter),
        parse (at_start (clean text) it) = Exc e it' ->
        is_SyntaxError e = true).
Proof.
  pose proof (clean_instructions text) as Hclean.
  split; [|split; [apply parse_total|]].
  - eapply Forall_impl; [exact Hclean|]. intros ch. apply is_instruction_Token.
  - intros e it' H. pose proof (parse_brackets it _ Hclean) as Hb.
    destruct (bracket_scan 0 0 (clean text)) as [p|[|d]].
    + destruct Hb as (it1 & Hb). rewrite Hb in H. now injection H as <- _.
    + destruct Hb as (it1 & Hb). rewrite Hb in H. discriminate.
    + destruct Hb as (it1 & Hb & _). rewrite Hb in H. now injection H as <- _.
Qed.

(** X1 on a text with a comment and a close bracket too many. *)
Lemma cleaned_text_parses_witness :
  clean (src "add: +] done") = src "+]"
  /\ exists it',
       parse (at_start (clean (src "add: +] done")) (one_cell 8 0))
       = Exc (NoMatchingOpen 1) it'
       /\ is_SyntaxError (NoMatchingOpen 1) = true.
Proof.
  split; [reflexivity|]. eexists. split; [vm_compute; reflexivity|].
  eapply (proj2 (proj2 (cleaned_text_parses (src "add: +] done") (one_cell 8 0)))).
  vm_compute; reflexivity.
Defined.

(** X2: on a text of instruction characters [parse] returns exactly when the
    brackets are balanced; it raises [NoMatchingOpen p] exactly when [p] is
    the position of the first close bracket without an open one, and
    [NoMatchingClosed] exactly when there is no such bracket and some
    bracket is left open. *)
Theorem parse_accepts_balanced (it : Interpreter) (prog : list ascii) :
  Forall (fun ch => is_instruction ch = true) prog ->
  ((exists it', parse (at_start prog it) = Val tt it')
   <-> bracket_scan 0 0 prog = inr 0%nat)
  /\ (forall p : nat,
        (exists it', parse (at_start prog it) = Exc (NoMatchingOpen p) it')
        <-> bracket_scan 0 0 prog = inl p)
  /\ ((exists it', parse (at_start prog it) = Exc NoMatchingClosed it')
      <-> exists d : nat, bracket_scan 0 0 prog = inr (S d)).
Proof.
  intros Hclean. pose proof (parse_brackets it prog Hclean) as Hb.
  destruct (bracket_scan 0 0 prog) as [p|[|d]].
  - destruct Hb as (it1 & Hb). rewrite Hb. split; [|split].
    + split; [intros (it' & [=]) | discriminate].
    + intros q. split; [intros (it' & [= ->]); reflexivity|].
      intros [= ->]. now exists it1.
    + split; [intros (it' & [=]) | intros (d & [=])].
  - destruct Hb as (it1 & Hb). rewrite Hb. split; [|split].
    + split; [reflexivity | intros _; now exists it1].
    + intros q. split; [intros (it' & [=]) | discriminate].
    + split; [intros (it' & [=]) | intros (d & [=])].
  - destruct Hb as (it1 & Hb & _). rewrite Hb. split; [|split].
    + split; [intros (it' & [=]) | discriminate].
    + intros q. split; [intros (it' & [=]) | discriminate].
    + split; [intros _; now exists d | intros _; now exists it1].
Qed.

(** X2 on ["[+[-]]"], balanced, and on ["[]]["], whose first unmatched close
    bracket is at position 2. *)
Lemma parse_accepts_balanced_witness :
  (exists it', parse (at_start (src "[+[-]]") (one_cell 8 0)) = Val tt it')
  /\ (exists it',
        parse (at_start (src "[]][") (one_cell 8 0))
        = Exc (NoMatchingOpen 2) it').
Proof.
  split.
  - apply (proj1 (parse_accepts_balanced (one_cell 8 0) (src "[+[-]]")
                    ltac:(repeat constructor))).
    reflexivity.
  - apply (proj1 (proj2 (parse_accepts_balanced (one_cell 8 0) (src "[]][")
                           ltac:(repeat constructor))) 2%nat).
    reflexivity.
Defined.

(** ** The shape of compiled programs *)

Lemma Token_eqb_neq (a b : Token) : a <> b -> Token_eqb a b = false.
Proof. destruct a, b; intros H; try reflexivity; now contradict H. Qed.

Lemma same_kind_Loop (a : c_token) (body : list c_token) :
  same_kind a (Loop body) = false.
Proof. now destruct a. Qed.

Lemma adjacent_differ_snoc (l : list c_token) (x : c_token) :
  adjacent_differ (l ++ [x])
  = adjacent_differ l
    && match last l with
       | Some y => negb (same_kind y x)
       | None => true
       end.
Proof.
  induction l as [|a l IH]; [reflexivity|].
  destruct l as [|b l].
  - cbn. now rewrite andb_true_r.
  - change ((a :: b :: l) ++ [x]) with (a :: ((b :: l) ++ [x])).
    rewrite last_cons_cons.
    change (adjacent_differ (a :: (b :: l) ++ [x]))
      with (negb (same_kind a b) && adjacent_differ ((b :: l) ++ [x])).
    rewrite IH.
    change (adjacent_differ (a :: b :: l))
      with (negb (same_kind a b) && adjacent_differ (b :: l)).
    now rewrite andb_assoc.
Qed.

Lemma well_formed_list_snoc (l : list c_token) (x : c_token) :
  well_formed_list l = true ->
  well_formed x = true ->
  (forall y, last l = Some y -> same_kind y x = false) ->
  well_formed_list (l ++ [x]) = true.
Proof.
  unfold well_formed_list. intros Hl Hx Hlast.
  apply andb_prop in Hl as [Ha Hf].
  rewrite adjacent_differ_snoc, List.forallb_app, Ha, Hf. cbn [forallb].
  rewrite Hx. destruct (last l) as [y|]; [|reflexivity].
  now rewrite (Hlast y eq_refl).
Qed.

Lemma step_of_io (ch : ascii) (t : Token) :
  Token_of ch = Some t -> t = StdOut \/ t = StdIn -> step_of ch = 1.
Proof.
  unfold Token_of, step_of.
  repeat match goal with
  | |- context [Ascii.eqb ch ?c] =>
      destruct (Ascii.eqb_spec ch c) as [->|]; cbn [orb]
  end; intros [= <-] [|]; (discriminate || reflexivity).
Qed.

Lemma net_steps_io (l : list ascii) :
  Forall (fun ch => step_of ch = 1) l -> net_steps l = Z.of_nat (length l).
Proof.
  induction 1 as [|ch l Hch _ IH]; [reflexivity|].
  rewrite net_steps_cons, Hch, IH. cbn [length]. lia.
Qed.

(** [emit] appends to the list that is being built, and to that list
    only. *)
Lemma emit_target (x : c_token) (it : Interpreter) :
  exists it' : Interpreter,
    emit x it = Val tt it'
    /\ target it' = target it ++ [x]
    /\ instr_ptr it' = instr_ptr it /\ program it' = program it
    /\ (forall P : list c_token -> Prop,
          P (target it ++ [x]) ->
          Forall P (stack it) -> P (c_tokens it) ->
          Forall P (stack it') /\ P (c_tokens it')).
Proof.
  unfold emit, modify, target. eexists. split; [reflexivity|].
  destruct (stack it) as [|b st] eqn:E.
  - cbn [stack set_c_tokens c_tokens instr_ptr program pop]. rewrite E.
    cbn [pop]. repeat split; auto.
  - destruct (pop (b :: st)) as [[r y]|] eqn:Hp;
      [|apply pop_None in Hp; discriminate].
    apply pop_Some in Hp. rewrite Hp.
    cbn [stack set_stack c_tokens instr_ptr program].
    rewrite append_top_snoc, pop_snoc. repeat split; auto.
    apply Forall_app in H0 as [Hr _]. apply Forall_app. split; [exact Hr|].
    now constructor.
Qed.


Lemma target_well_formed (it : Interpreter) :
  Forall (fun l => well_formed_list l = true) (stack it) ->
  well_formed_list (c_tokens it) = true ->
  well_formed_list (target it) = true.
Proof.
  intros Hs Hc. unfold target.
  destruct (pop (stack it)) as [[r b]|] eqn:Hp; [|exact Hc].
  apply pop_Some in Hp. rewrite Hp in Hs.
  apply Forall_app in Hs as [_ Hb]. now inversion Hb.
Qed.

(** One pass through the body of the outer [while] keeps [scan_inv]. *)
Lemma parse_branch_well_formed (token : Token) (ch : ascii)
    (it it' : Interpreter) :
  program it !! instr_ptr it = Some ch ->
  Token_of ch = Some token ->
  scan_inv it ->
  parse_branch token (step_of ch) it = Val tt it' ->
  scan_inv (set_instr_ptr (instr_ptr it' + 1) it').
Proof.
  intros Hch Htok (Hstack & Hct & Hbound).
  assert (Htarget := target_well_formed it Hstack Hct).
  assert (Hrun :
    token <> LoopStart -> token <> LoopEnd ->
    (it0 <- get ;;
     count' <- fold_run (length (program it0)) token (step_of ch) ;;
     emit (CountedToken token count')) it = Val tt it' ->
    scan_inv (set_instr_ptr (instr_ptr it' + 1) it')).
  { intros H1 H2. unfold bind, get.
    pose proof (fold_run_post (length (program it)) token (step_of ch) it)
      as Hpost.
    destruct (fold_run (length (program it)) token (step_of ch) it)
      as [count' it1|e it1|]; [|discriminate|discriminate].
    destruct Hpost as (Hit & Hle & Hspan & Hnext & Hcount).
    assert (Ht1 : target it1 = target it) by (rewrite Hit; reflexivity).
    assert (Hs1 : stack it1 = stack it) by (rewrite Hit; reflexivity).
    assert (Hc1 : c_tokens it1 = c_tokens it) by (rewrite Hit; reflexivity).
    assert (Hp1 : program it1 = program it) by (rewrite Hit; reflexivity).
    destruct (emit_target (CountedToken token count') it1)
      as (it2 & -> & Ht2 & Hi2 & Hp2 & Hlists).
    intros [= <-].
    assert (Hnode : well_formed (CountedToken token count') = true).
    { destruct token; try reflexivity; try contradiction;
        cbn [well_formed]; apply Z.leb_le; subst count';
        (rewrite (step_of_io ch _ Htok) by auto);
        (rewrite net_steps_io;
          [lia|]);
        apply Forall_lookup; intros j c Hj;
        apply lookup_take_Some in Hj as [Hj Hlt];
        rewrite lookup_drop in Hj;
        (apply (step_of_io c _
                  (Hspan (S (instr_ptr it) + j)%nat c ltac:(lia) Hj)); auto). }
    assert (Hnew : well_formed_list (target it ++ [CountedToken token count'])
                   = true).
    { apply well_formed_list_snoc; [exact Htarget | exact Hnode |].
      intros [t c|body] Hlast; [|reflexivity].
      cbn [same_kind]. apply Token_eqb_neq. intros ->.
      now apply (Hbound token c ch Hlast Hch). }
    destruct (Hlists (fun l => well_formed_list l = true))
      as [Hstack2 Hct2];
      [now rewrite Ht1 | now rewrite Hs1 | now rewrite Hc1 |].
    split; [exact Hstack2|]. split; [exact Hct2|].
    intros t c ch'.
    change (target (set_instr_ptr (instr_ptr it2 + 1) it2)) with (target it2).
    rewrite Ht2, last_snoc. intros [= <- <-].
    cbn [program instr_ptr set_instr_ptr]. rewrite Hp2, Hp1, Hi2.
    replace (instr_ptr it1 + 1)%nat with (S (instr_ptr it1)) by lia.
    apply Hnext. }
  destruct token; cbn [parse_branch];
    try (apply Hrun; discriminate).
  - (* LoopStart *)
    unfold modify. intros [= <-].
    split; [|split].
    + cbn [stack set_stack set_instr_ptr]. apply Forall_app. split; [exact Hstack|].
      now constructor.
    + exact Hct.
    + intros t c ch'. unfold target. cbn [stack set_stack set_instr_ptr].
      rewrite pop_snoc. discriminate.
  - (* LoopEnd *)
    unfold bind, get.
    destruct (pop (stack it)) as [[rest loop]|] eqn:Hpop; [|discriminate].
    apply pop_Some in Hpop. rewrite Hpop in Hstack.
    apply Forall_app in Hstack as [Hrest Hloop].
    assert (Hl : well_formed_list loop = true) by now inversion Hloop.
    unfold modify.
    destruct (emit_target (Loop loop) (set_stack rest it))
      as (it2 & -> & Ht2 & Hi2 & Hp2 & Hlists).
    intros [= <-].
    destruct (Hlists (fun l => well_formed_list l = true))
      as [Hstack2 Hct2]; [| exact Hrest | exact Hct |].
    { apply well_formed_list_snoc;
        [now apply target_well_formed | exact Hl |].
      intros y _. apply same_kind_Loop. }
    split; [exact Hstack2|]. split; [exact Hct2|].
    intros t c ch'.
    change (target (set_instr_ptr (instr_ptr it2 + 1) it2)) with (target it2).
    rewrite Ht2, last_snoc. discriminate.
Qed.

Lemma parse_loop_well_formed (fuel : nat) :
  forall it it' : Interpreter,
    scan_inv it -> parse_loop fuel it = Val tt it' -> scan_inv it'.
Proof.
  induction fuel as [|f IH]; intros it it' Hinv;
    cbn [parse_loop]; unfold bind, get;
    (destruct (instr_ptr it <? length (program it))%nat;
      [| unfold ret; now intros [= <-]]); [discriminate|].
  unfold program_at.
  destruct (program it !! instr_ptr it) as [ch|] eqn:Hch; [|discriminate].
  unfold Token_call.
  destruct (Token_of ch) as [token|] eqn:Htok; [|discriminate]. unfold ret.
  destruct (parse_branch token (step_of ch) it) as [[] it1|e it1|] eqn:Hb;
    [|discriminate|discriminate].
  unfold modify. apply IH.
  now apply (parse_branch_well_formed token ch it it1).
Qed.

(** X3: every program [parse] returns is well formed: its counted nodes carry
    one of the four operation tokens, its Output and Input nodes have a count
    of at least 1, and nowhere, at any depth, are two neighbours counted
    nodes of the same token, so that every run has been folded whole. *)
Theorem compiled_well_formed (prog : list ascii) (it it' : Interpreter) :
  parse (at_start prog it) = Val tt it' ->
  well_formed_list (c_tokens it') = true.
Proof.
  unfold parse, bind, get. cbn [program at_start].
  destruct (parse_loop (length prog) (at_start prog it)) as [[] it1|e it1|] eqn:E;
    [|discriminate|discriminate].
  assert (Hinv : scan_inv it1).
  { apply (parse_loop_well_formed (length prog) (at_start prog it)); [|exact E].
    split; [constructor|]. split; [reflexivity|]. discriminate. }
  destruct (stack it1); [|discriminate]. intros [= <-]. apply Hinv.
Qed.

(** ** How the tape operations compose *)

(** X5: with a cell size of at least one bit, two ModifyCell operations in a
    row do what one operation with the sum of their counts does, whether the
    pointer addresses a cell or not: folding a run of [+] and [-] into one
    node changes nothing. *)
Theorem incr_incr (a b : Z) (it : Interpreter) :
  1 <= cell_size it ->
  (incr a ;; incr b) it = incr (a + b) it.
Proof.
  intros HW. unfold bind at 1.
  destruct (getitem (memory it) (data_ptr it)) as [v|] eqn:Hv.
  - destruct (getitem_inv _ _ _ Hv) as (n & Hn & Hnv).
    pose proof (py_index_lt _ _ _ Hn) as Hlt.
    rewrite (incr_at it a v n HW Hn Hnv).
    rewrite (incr_at _ b ((v + a) mod 2 ^ cell_size it) n);
      cbn [cell_size memory data_ptr set_memory];
      [| exact HW | now rewrite length_insert
       | now apply list_lookup_insert_eq].
    rewrite (incr_at it (a + b) v n HW Hn Hnv).
    rewrite list_insert_insert_eq, Zplus_mod_idemp_l.
    now rewrite Z.add_assoc.
  - unfold incr, bind, load_cell. now rewrite Hv.
Qed.

(** X5 on a cell holding 250, with counts 10 and -3. *)
Lemma incr_incr_witness :
  (incr 10 ;; incr (-3)) (one_cell 8 250) = incr (10 + -3) (one_cell 8 250)
  /\ incr (10 + -3) (one_cell 8 250) = Val tt (one_cell 8 1).
Proof.
  split; [apply incr_incr; simpl; lia | reflexivity].
Defined.

(** X6: two MovePointer operations in a row do what one operation with the
    sum of their counts does, provided the first does not stop exactly one
    past the end of the tape (where it would grow the tape, which the single
    operation does not). *)
Theorem incr_ptr_incr_ptr (a b : Z) (it : Interpreter) :
  data_ptr it + a <> Z.of_nat (length (memory it)) ->
  (incr_ptr a ;; incr_ptr b) it = incr_ptr (a + b) it.
Proof.
  intros H. unfold bind at 1. rewrite (incr_ptr_nogrow it a H).
  rewrite !incr_ptr_unfold. cbn [data_ptr memory set_data_ptr].
  now rewrite Z.add_assoc.
Qed.

(** X6 on a tape of three cells: two steps right from index 0. *)
Lemma incr_ptr_incr_ptr_witness :
  let it := mkInterpreter [] [] 0 0 [] 8 [1; 2; 3] 256 [] [] in
  (incr_ptr 1 ;; incr_ptr 1) it = incr_ptr (1 + 1) it
  /\ incr_ptr (1 + 1) it = Val tt (set_data_ptr 2 it).
Proof.
  intros it. split; [apply incr_ptr_incr_ptr; simpl; lia | reflexivity].
Defined.

(** ** Output *)

Lemma stdout_loop_add (n m : nat) (it : Interpreter) :
  stdout_loop (n + m) it = (stdout_loop n ;; stdout_loop m) it.
Proof.
  revert it. induction n as [|k IH]; intros it; [reflexivity|].
  cbn [Nat.add stdout_loop]. unfold bind.
  destruct (load_cell it) as [v it1| |]; [|reflexivity|reflexivity].
  destruct (chr v it1) as [c it2| |]; [|reflexivity|reflexivity].
  destruct (sys_stdout_write c it2) as [[] it3| |]; [|reflexivity|reflexivity].
  rewrite IH. reflexivity.
Qed.



(** X8: two Output operations in a row, neither with a negative count, do
    what one operation with the sum of their counts does: folding a run of
    [.] into one node changes nothing. *)
Theorem stdout_stdout (a b : Z) (it : Interpreter) :
  0 <= a -> 0 <= b ->
  (stdout a ;; stdout b) it = stdout (a + b) it.
Proof.
  intros Ha Hb. unfold stdout. rewrite Z2Nat.inj_add by assumption.
  symmetry. apply stdout_loop_add.
Qed.

(** X8 on a cell holding 66, written once and then twice. *)
Lemma stdout_stdout_witness :
  (stdout 1 ;; stdout 2) (one_cell 8 66) = stdout (1 + 2) (one_cell 8 66)
  /\ stdout (1 + 2) (one_cell 8 66)
     = Val tt (set_sys_stdout [66; 66; 66] (one_cell 8 66)).
Proof.
  split; [apply stdout_stdout; lia | reflexivity].
Defined.

(** ** Input *)

(** X9: an Input operation at the end of the input raises [TypeError],
    whatever its count, and leaves the interpreter as it was. *)
Theorem stdin_at_end_of_input (count : Z) (it : Interpreter) :
  sys_stdin it = [] -> stdin count it = Exc TypeError it.
Proof.
  intros Hin. unfold stdin, bind, sys_stdin_read. rewrite Hin.
  assert (Hit : set_sys_stdin [] it = it) by (destruct it; simpl in *; now subst).
  destruct (count <? 0); rewrite ?take_nil, ?drop_nil, Hit; reflexivity.
Qed.

(** X9 on a one-cell tape with no input. *)
Lemma stdin_at_end_of_input_witness :
  stdin 1 (one_cell 8 7) = Exc TypeError (one_cell 8 7).
Proof. apply stdin_at_end_of_input. reflexivity. Defined.

(** X10: an Input operation with a count of 2 or more raises [TypeError]
    whenever at least two characters are left to read; the characters it has
    read are gone and the tape is as it was. *)
Theorem stdin_count_above_one_raises (count : Z) (it : Interpreter) :
  2 <= count ->
  (2 <= length (sys_stdin it))%nat ->
  stdin count it
  = Exc TypeError (set_sys_stdin (drop (Z.to_nat count) (sys_stdin it)) it).
Proof.
  intros Hc Hlen. unfold stdin, bind, sys_stdin_read.
  replace (count <? 0) with false by (symmetry; apply Z.ltb_ge; lia).
  destruct (sys_stdin it) as [|c1 [|c2 rest]]; cbn [length] in Hlen; try lia.
  destruct (Z.to_nat count) as [|[|k]] eqn:E; try lia.
  reflexivity.
Qed.

(** X10 with a count of 3 and the input [abcd]. *)
Lemma stdin_count_above_one_raises_witness :
  let it := mkInterpreter [] [] 0 0 [] 8 [0] 256 [97; 98; 99; 100] [] in
  stdin 3 it = Exc TypeError (set_sys_stdin [100] it).
Proof.
  intros it. apply (stdin_count_above_one_raises 3 it); simpl; lia.
Defined.

(** ** Execution *)

Lemma execute_counted (fuel : nat) (token : Token) (count : Z)
    (rest : list c_token) :
  execute (S fuel) (CountedToken token count :: rest)
  = (dispatch token count ;; execute fuel rest).
Proof. now destruct token. Qed.

Lemma total_bind {A B} (c : M A) (k : A -> M B) :
  total c -> (forall a, total (k a)) -> total (bind c k).
Proof.
  intros Hc Hk it. unfold bind. specialize (Hc it).
  destruct (c it) as [a it1|e it1|]; [apply Hk | discriminate | contradiction].
Qed.

Lemma total_ret {A} (a : A) : total (ret a).
Proof. intros it. discriminate. Qed.

Lemma total_raise {A} (e : exn) : total (@raise A e).
Proof. intros it. discriminate. Qed.

Lemma total_load_cell : total load_cell.
Proof.
  intros it. unfold load_cell.
  destruct (getitem (memory it) (data_ptr it)); discriminate.
Qed.

Lemma total_store_cell (v : Z) : total (store_cell v).
Proof.
  intros it. unfold store_cell.
  destruct (setitem (memory it) (data_ptr it) v); discriminate.
Qed.

Lemma total_lshift (a b : Z) : total (lshift a b).
Proof. unfold lshift. destruct (b <? 0); [apply total_raise | apply total_ret]. Qed.

Lemma total_chr (v : Z) : total (chr v).
Proof.
  unfold chr. destruct ((v <? -2147483648) || (2147483647 <? v));
    [apply total_raise|].
  destruct ((0 <=? v) && (v <? 1114112));
    [apply total_ret | apply total_raise].
Qed.

Lemma total_ord (s : list Z) : total (ord s).
Proof.
  unfold ord. destruct s as [|c [|]];
    [apply total_raise | apply total_ret | apply total_raise].
Qed.

Lemma total_read (n : Z) : total (sys_stdin_read n).
Proof. intros it. unfold sys_stdin_read. destruct (n <? 0); discriminate. Qed.

Lemma total_modify (f : Interpreter -> Interpreter) : total (modify f).
Proof. intros it. discriminate. Qed.

Lemma total_get : total get.
Proof. intros it. discriminate. Qed.

Lemma total_write (c : Z) : total (sys_stdout_write c).
Proof.
  unfold sys_stdout_write.
  destruct (surrogate c); [apply total_raise | apply total_modify].
Qed.

Create HintDb totals.

#[local] Hint Resolve total_bind total_ret total_raise total_load_cell
  total_store_cell total_lshift total_chr total_ord total_read total_modify
  total_get : totals.

Lemma execute_loop (fuel : nat) (body rest : list c_token) :
  execute (S fuel) (Loop body :: rest)
  = (v <- load_cell ;;
     if v =? 0 then execute fuel rest
     else execute fuel body ;; execute fuel (Loop body :: rest)).
Proof. reflexivity. Qed.

Lemma stdout_loop_total (n : nat) : total (stdout_loop n).
Proof.
  induction n; cbn [stdout_loop]; auto 10 using total_write with totals.
Qed.

(** A counted node never runs for ever. *)
Lemma dispatch_total (token : Token) (count : Z) : total (dispatch token count).
Proof.
  destruct token; cbn [dispatch]; auto with totals.
  - unfold incr_ptr. apply total_bind; [auto with totals|]. intros _.
    apply total_bind; [auto with totals|]. intros it.
    destruct (data_ptr it =? Z.of_nat (length (memory it))); auto with totals.
  - unfold incr. auto 10 with totals.
  - apply stdout_loop_total.
  - unfold stdin. auto 10 with totals.
Qed.

Lemma execute_loop_free (prog : list c_token) :
  forall it : Interpreter,
    loop_free prog = true ->
    execute (S (length prog)) prog it <> OutOfFuel.
Proof.
  induction prog as [|[token count|body] rest IH]; intros it Hfree;
    [discriminate| |discriminate].
  cbn [length]. rewrite execute_counted. unfold bind.
  pose proof (dispatch_total token count it) as Ht.
  destruct (dispatch token count it) as [[] it1|e it1|];
    [now apply IH | discriminate | contradiction].
Qed.

(** X11: a compiled list without loop nodes always comes to an end, normally
    or with an exception: one unit of fuel more than its length is enough,
    and more fuel gives the same result. *)
Theorem straight_line_terminates (prog : list c_token) (it : Interpreter) :
  loop_free prog = true ->
  exists r : res unit,
    r <> OutOfFuel
    /\ forall fuel : nat, (length prog < fuel)%nat -> execute fuel prog it = r.
Proof.
  intros Hfree. exists (execute (S (length prog)) prog it).
  pose proof (execute_loop_free prog it Hfree) as Hr.
  split; [exact Hr|]. intros fuel Hfuel.
  now apply execute_mono; [lia|].
Qed.

(** X11 on [+ > .] over one cell: the move grows nothing and the output
    finds no cell. *)
Lemma straight_line_terminates_witness :
  exists r : res unit,
    r <> OutOfFuel
    /\ forall fuel : nat,
         (3 < fuel)%nat ->
         execute fuel [CountedToken Incr 1; CountedToken IncrPtr 1;
                       CountedToken StdOut 1] (one_cell 8 0) = r.
Proof.
  apply (straight_line_terminates
           [CountedToken Incr 1; CountedToken IncrPtr 1; CountedToken StdOut 1]
           (one_cell 8 0)).
  reflexivity.
Defined.

(** X12: the empty loop on a cell that is not zero never ends: whatever the
    fuel, [execute] runs out of it. *)
Theorem empty_loop_diverges (fuel : nat) (rest : list c_token)
    (it : Interpreter) (v : Z) :
  getitem (memory it) (data_ptr it) = Some v ->
  v <> 0 ->
  execute fuel (Loop [] :: rest) it = OutOfFuel.
Proof.
  intros Hv Hnz. induction fuel as [|f IH]; [reflexivity|].
  cbn [execute]. unfold bind, load_cell. rewrite Hv.
  replace (v =? 0) with false by (symmetry; now apply Z.eqb_neq).
  destruct f as [|f']; [reflexivity|]. cbn [execute] in *. exact IH.
Qed.

(** X12 on a cell holding 1, as after ["+[]"]. *)
Lemma empty_loop_diverges_witness :
  execute 1000 [Loop []] (one_cell 8 1) = OutOfFuel.
Proof.
  apply (empty_loop_diverges 1000 [] (one_cell 8 1) 1); [reflexivity | lia].
Defined.

Lemma set_memory_same (it : Interpreter) (n : nat) (v : Z) :
  memory it !! n = Some v -> set_memory (<[n := v]> (memory it)) it = it.
Proof. intros H. rewrite list_insert_id by exact H. now destruct it. Qed.

(** The loop [[-]] counts the cell down to zero. *)
Lemma clear_loop_down (k : nat) :
  forall (it : Interpreter) (n : nat),
    1 <= cell_size it ->
    py_index (length (memory it)) (data_ptr it) = Some n ->
    memory it !! n = Some (Z.of_nat k) ->
    Z.of_nat k < 2 ^ cell_size it ->
    execute (k + 2) [Loop [CountedToken Incr (-1)]] it
    = Val tt (set_memory (<[n := 0]> (memory it)) it).
Proof.
  induction k as [|j IH]; intros it n HW Hn Hv Hlt.
  - cbn [Nat.add execute]. unfold bind.
    rewrite (load_cell_at it n _ Hn Hv). cbn [Z.of_nat Z.eqb]. unfold ret.
    now rewrite set_memory_same.
  - replace (S j + 2)%nat with (S (j + 2)) by lia.
    rewrite execute_loop. unfold bind at 1.
    rewrite (load_cell_at it n _ Hn Hv).
    replace (Z.of_nat (S j) =? 0) with false
      by (symmetry; apply Z.eqb_neq; lia).
    set (it1 := set_memory (<[n := Z.of_nat j]> (memory it)) it).
    assert (Hbody : execute (j + 2) [CountedToken Incr (-1)] it = Val tt it1).
    { replace (j + 2)%nat with (S (S j)) by lia.
      rewrite execute_counted. unfold bind. cbn [dispatch].
      rewrite (incr_at it (-1) _ n HW Hn Hv).
      replace ((Z.of_nat (S j) + -1) mod 2 ^ cell_size it) with (Z.of_nat j)
        by (rewrite Z.mod_small; lia).
      reflexivity. }
    unfold bind. rewrite Hbody.
    pose proof (py_index_lt _ _ _ Hn) as Hbound.
    rewrite (IH it1 n); subst it1; cbn [cell_size memory data_ptr set_memory];
      [now rewrite list_insert_insert_eq
      | exact HW | now rewrite length_insert
      | now apply list_lookup_insert_eq | lia].
Qed.

(** X14: the loop [[-]] on a cell in range ends with that cell at zero and
    everything else as it was. *)
Theorem clear_loop (it : Interpreter) (n : nat) (v : Z) :
  1 <= cell_size it ->
  py_index (length (memory it)) (data_ptr it) = Some n ->
  memory it !! n = Some v ->
  0 <= v < 2 ^ cell_size it ->
  exists fuel : nat,
    execute fuel [Loop [CountedToken Incr (-1)]] it
    = Val tt (set_memory (<[n := 0]> (memory it)) it).
Proof.
  intros HW Hn Hv Hr. exists (Z.to_nat v + 2)%nat.
  apply clear_loop_down; auto; rewrite Z2Nat.id; lia || auto. 
Qed.

(** X14 on a cell holding 200. *)
Lemma clear_loop_witness :
  exists fuel : nat,
    execute fuel [Loop [CountedToken Incr (-1)]] (one_cell 8 200)
    = Val tt (set_memory (<[0%nat := 0]> [200]) (one_cell 8 200)).
Proof.
  apply (clear_loop (one_cell 8 200) 0 200); (reflexivity || simpl; lia).
Defined.

(** ** What execution leaves alone *)

Lemma exec_frame_refl (it : Interpreter) : exec_frame it it.
Proof. unfold exec_frame. repeat split; reflexivity. Qed.

Lemma exec_frame_trans (a b c : Interpreter) :
  exec_frame a b -> exec_frame b c -> exec_frame a c.
Proof.
  intros (Hs1 & Hc1 & Hi1 & Hp1 & Hw1 & Hm1 & Hl1 & Hin1 & Hout1)
         (Hs2 & Hc2 & Hi2 & Hp2 & Hw2 & Hm2 & Hl2 & Hin2 & Hout2).
  unfold exec_frame.
  repeat split; try congruence; [lia | etrans; eauto | etrans; eauto].
Qed.

Lemma framed_ret {A} (a : A) : framed (ret a).
Proof. intros it it' [= <-]. apply exec_frame_refl. Qed.

Lemma framed_raise {A} (e : exn) : framed (@raise A e).
Proof. intros it it' [= <-]. apply exec_frame_refl. Qed.

Lemma framed_out_of_fuel {A} : framed (@out_of_fuel A).
Proof. intros it it' [=]. Qed.

Lemma framed_get : framed get.
Proof. intros it it' [= <-]. apply exec_frame_refl. Qed.

Lemma framed_bind {A B} (c : M A) (k : A -> M B) :
  framed c -> (forall a, framed (k a)) -> framed (bind c k).
Proof.
  intros Hc Hk it it'. unfold bind.
  destruct (c it) as [a it1|e it1|] eqn:E; simpl.
  - intros H. apply (exec_frame_trans it it1 it'); [|now apply (Hk a)].
    apply Hc. now rewrite E.
  - intros [= <-]. apply Hc. now rewrite E.
  - discriminate.
Qed.

Lemma framed_load_cell : framed load_cell.
Proof.
  intros it it'. rewrite load_cell_pure. intros [= <-]. apply exec_frame_refl.
Qed.

Lemma framed_store_cell (v : Z) : framed (store_cell v).
Proof.
  intros it it'. unfold store_cell, setitem.
  destruct (py_index (length (memory it)) (data_ptr it)) as [n|];
    intros [= <-]; [|apply exec_frame_refl].
  unfold exec_frame. cbn. rewrite length_insert. repeat split; reflexivity.
Qed.

Lemma framed_lshift (a b : Z) : framed (lshift a b).
Proof.
  unfold lshift. destruct (b <? 0); [apply framed_raise | apply framed_ret].
Qed.

Lemma framed_chr (v : Z) : framed (chr v).
Proof.
  unfold chr. destruct ((v <? -2147483648) || (2147483647 <? v));
    [apply framed_raise|].
  destruct ((0 <=? v) && (v <? 1114112));
    [apply framed_ret | apply framed_raise].
Qed.

Lemma framed_ord (s : list Z) : framed (ord s).
Proof.
  unfold ord. destruct s as [|c [|]];
    [apply framed_raise | apply framed_ret | apply framed_raise].
Qed.

Lemma framed_read (n : Z) : framed (sys_stdin_read n).
Proof.
  intros it it'. unfold sys_stdin_read.
  destruct (n <? 0); intros [= <-]; unfold exec_frame; cbn;
    repeat split; try reflexivity; [apply suffix_nil | apply suffix_drop].
Qed.

Lemma framed_write (c : Z) : framed (sys_stdout_write c).
Proof.
  unfold sys_stdout_write. destruct (surrogate c); [apply framed_raise|].
  intros it it' [= <-]. unfold exec_frame. cbn.
  repeat split; try reflexivity. now apply prefix_app_r.
Qed.

Lemma framed_incr_ptr (c : Z) : framed (incr_ptr c).
Proof.
  intros it it'. rewrite incr_ptr_unfold.
  destruct (data_ptr it + c =? Z.of_nat (length (memory it)));
    intros [= <-]; unfold exec_frame; cbn; rewrite ?length_app;
    repeat split; try reflexivity; lia.
Qed.

Create HintDb frames.

#[local] Hint Resolve framed_ret framed_raise framed_get framed_bind
  framed_load_cell framed_store_cell framed_lshift framed_chr framed_ord
  framed_read framed_write framed_incr_ptr framed_out_of_fuel : frames.

Lemma framed_stdout_loop (n : nat) : framed (stdout_loop n).
Proof. induction n; cbn [stdout_loop]; auto 10 with frames. Qed.

Lemma framed_dispatch (token : Token) (count : Z) :
  framed (dispatch token count).
Proof.
  destruct token; cbn [dispatch]; auto with frames.
  - unfold incr. auto 10 with frames.
  - apply framed_stdout_loop.
  - unfold stdin. auto 10 with frames.
Qed.

Lemma framed_execute (fuel : nat) :
  forall prog : list c_token, framed (execute fuel prog).
Proof.
  induction fuel as [|f IH]; intros prog; [apply framed_out_of_fuel|].
  destruct prog as [|[token count|body] rest]; [apply framed_ret| |].
  - rewrite execute_counted.
    apply framed_bind; [apply framed_dispatch | intros _; apply IH].
  - rewrite execute_loop. apply framed_bind; [apply framed_load_cell|].
    intros v. destruct (v =? 0); [apply IH|].
    apply framed_bind; [apply IH | intros _; apply IH].
Qed.

(** X15: whatever [execute] runs and however it ends, the attributes of
    [parse] and the cell size are as before, the tape is no shorter, what is
    left of the input is an end of what was there, and the output begins
    with what had been written. *)
Theorem execute_frame (fuel : nat) (prog : list c_token)
    (it it' : Interpreter) :
  final_state (execute fuel prog it) = Some it' ->
  stack it' = stack it /\ c_tokens it' = c_tokens it
  /\ instr_ptr it' = instr_ptr it /\ program it' = program it
  /\ cell_size it' = cell_size it /\ max_int it' = max_int it
  /\ (length (memory it) <= length (memory it'))%nat
  /\ sys_stdin it' `suffix_of` sys_stdin it
  /\ sys_stdout it `prefix_of` sys_stdout it'.
Proof. apply framed_execute. Qed.

(** X15 on [,[.-]] with the input [\002 x]. *)
Lemma execute_frame_witness :
  let it := mkInterpreter [] [] 0 0 [] 8 [0] 256 [2; 120] [9] in
  exists it',
    execute 20 [CountedToken StdIn 1;
                Loop [CountedToken StdOut 1; CountedToken Incr (-1)]] it
    = Val tt it'
    /\ sys_stdin it' = [120] /\ sys_stdout it' = [9; 2; 1]
    /\ (length (memory it) <= length (memory it'))%nat
    /\ sys_stdin it' `suffix_of` sys_stdin it
    /\ sys_stdout it `prefix_of` sys_stdout it'.
Proof.
  intros it. eexists. split; [vm_compute; reflexivity|].
  split; [reflexivity|]. split; [reflexivity|].
  eapply (execute_frame 20
            [CountedToken StdIn 1;
             Loop [CountedToken StdOut 1; CountedToken Incr (-1)]] it).
  vm_compute; reflexivity.
Defined.

(** ** Cells and input in range *)

Lemma input_in_range_frame (it it' : Interpreter) :
  exec_frame it it' -> input_in_range it -> input_in_range it'.
Proof.
  intros (_ & _ & _ & _ & HW & _ & _ & [k Hk] & _). unfold input_in_range.
  rewrite HW, Hk. intros H. now apply Forall_app in H.
Qed.

Lemma stdin_cells_in_range (c : Z) (it it' : Interpreter) :
  cells_in_range it -> input_in_range it ->
  final_state (stdin c it) = Some it' -> cells_in_range it'.
Proof.
  intros Hr Hin. unfold stdin, bind, sys_stdin_read.
  assert (Hhead : forall s ch,
    (s = sys_stdin it \/ s = take (Z.to_nat c) (sys_stdin it)) ->
    s = [ch] -> 0 <= ch < 2 ^ cell_size it).
  { intros s ch [->| ->] Hs; unfold input_in_range in Hin.
    - rewrite Hs in Hin. now inversion Hin.
    - destruct (sys_stdin it) as [|x l]; [now rewrite take_nil in Hs|].
      destruct (Z.to_nat c); [discriminate|]. injection Hs as -> _.
      now inversion Hin. }
  destruct (c <? 0).
  - destruct (sys_stdin it) as [|ch [|]] eqn:E; unfold ord, ret, raise;
      try (intros [= <-]; exact Hr).
    unfold store_cell, setitem. cbn [memory data_ptr set_sys_stdin].
    destruct (py_index (length (memory it)) (data_ptr it));
      intros [= <-]; [|exact Hr].
    unfold cells_in_range. cbn [memory cell_size set_memory set_sys_stdin].
    apply Forall_insert; [exact Hr|]. apply (Hhead [ch] ch); auto.
  - destruct (take (Z.to_nat c) (sys_stdin it)) as [|ch [|]] eqn:E;
      unfold ord, ret, raise; try (intros [= <-]; exact Hr).
    unfold store_cell, setitem. cbn [memory data_ptr set_sys_stdin].
    destruct (py_index (length (memory it)) (data_ptr it));
      intros [= <-]; [|exact Hr].
    unfold cells_in_range. cbn [memory cell_size set_memory set_sys_stdin].
    apply Forall_insert; [exact Hr|]. apply (Hhead [ch] ch); auto.
Qed.

Lemma dispatch_ranged (token : Token) (count : Z) (it it' : Interpreter) :
  ranged it -> final_state (dispatch token count it) = Some it' -> ranged it'.
Proof.
  intros (HW & Hr & Hin) H.
  pose proof (framed_dispatch token count it it' H) as Hf.
  split; [|split].
  - destruct Hf as (_ & _ & _ & _ & -> & _). exact HW.
  - destruct token; cbn [dispatch] in H.
    + now apply (incr_ptr_cells_in_range count it).
    + now apply (incr_cells_in_range count it).
    + now apply (stdout_cells_in_range count it).
    + now apply (stdin_cells_in_range count it).
    + now injection H as <-.
    + now injection H as <-.
  - now apply (input_in_range_frame it).
Qed.

(** X16: when the cell size is at least one bit, every cell is in
    [[0, 2^W)] and every character still to be read has a code in that
    range, the same holds after any execution, however it ends. *)
Theorem execute_keeps_range (fuel : nat) :
  forall (prog : list c_token) (it it' : Interpreter),
    1 <= cell_size it -> cells_in_range it -> input_in_range it ->
    final_state (execute fuel prog it) = Some it' ->
    1 <= cell_size it' /\ cells_in_range it' /\ input_in_range it'.
Proof.
  assert (H : forall (prog : list c_token) (it it' : Interpreter),
             ranged it -> final_state (execute fuel prog it) = Some it' ->
             ranged it');
    [|intros prog it it' HW Hr Hin; now apply H].
  induction fuel as [|f IH]; intros prog it it' Hran; [discriminate|].
  destruct prog as [|[token count|body] rest].
  - now intros [= <-].
  - rewrite execute_counted. unfold bind.
    destruct (dispatch token count it) as [[] it1|e it1|] eqn:E.
    + apply IH. apply (dispatch_ranged token count it); [exact Hran|].
      now rewrite E.
    + intros [= <-]. apply (dispatch_ranged token count it); [exact Hran|].
      now rewrite E.
    + discriminate.
  - rewrite execute_loop. unfold bind.
    pose proof (load_cell_pure it) as Hl.
    destruct (load_cell it) as [v it1|e it1|]; [| |discriminate];
      injection Hl as ->; [|now intros [= <-]].
    destruct (v =? 0); [now apply IH|].
    destruct (execute f body it) as [[] it2|e it2|] eqn:E.
    + apply IH. apply (IH body it); [exact Hran | now rewrite E].
    + intros [= <-]. apply (IH body it); [exact Hran | now rewrite E].
    + discriminate.
Qed.

(** X16 with 8-bit cells: [,[+]] on the input [\200]. *)
Lemma execute_keeps_range_witness :
  let it := mkInterpreter [] [] 0 0 [] 8 [0; 0] 256 [200; 65] [] in
  exists it',
    execute 200 [CountedToken StdIn 1; Loop [CountedToken Incr 1]] it
    = Val tt it'
    /\ 1 <= cell_size it' /\ cells_in_range it' /\ input_in_range it'.
Proof.
  intros it. eexists. split; [vm_compute; reflexivity|].
  eapply (execute_keeps_range 200
            [CountedToken StdIn 1; Loop [CountedToken Incr 1]] it).
  - simpl; lia.
  - repeat constructor; simpl; lia.
  - repeat constructor; simpl; lia.
  - vm_compute; reflexivity.
Defined.

(** ** Lists of nodes run in sequence *)

Lemma execute_app_result (f1 : nat) :
  forall (f2 : nat) (p1 p2 : list c_token) (it it1 : Interpreter)
         (r : res unit),
    execute f1 p1 it = Val tt it1 ->
    execute f2 p2 it1 = r -> r <> OutOfFuel ->
    execute (f1 + f2) (p1 ++ p2) it = r.
Proof.
  induction f1 as [|f IH]; intros f2 p1 p2 it it1 r H1 H2 Hr; [discriminate|].
  destruct p1 as [|[token count|body] rest].
  - injection H1 as <-. cbn [app]. subst r.
    apply execute_mono; [lia | exact Hr].
  - cbn [app Nat.add]. rewrite execute_counted in *. unfold bind in *.
    destruct (dispatch token count it) as [[] ita|e ita|]; try discriminate.
    now apply (IH f2 rest p2 ita it1).
  - cbn [app Nat.add]. rewrite execute_loop in *. unfold bind in *.
    destruct (load_cell it) as [v ita|e ita|]; try discriminate.
    destruct (v =? 0); [now apply (IH f2 rest p2 ita it1)|].
    destruct (execute f body ita) as [[] itb|e itb|] eqn:E; try discriminate.
    rewrite (execute_more f (f + f2) body ita itb) by (lia || assumption).
    now apply (IH f2 (Loop body :: rest) p2 itb it1).
Qed.

Lemma execute_app_raise (f : nat) :
  forall (p1 p2 : list c_token) (it it1 : Interpreter) (e : exn),
    execute f p1 it = Exc e it1 -> execute f (p1 ++ p2) it = Exc e it1.
Proof.
  induction f as [|f' IH]; intros p1 p2 it it1 e H; [discriminate|].
  destruct p1 as [|[token count|body] rest]; [discriminate| |].
  - cbn [app]. rewrite execute_counted in *. unfold bind in *.
    destruct (dispatch token count it) as [[] ita|e' ita|];
      [now apply IH | exact H | discriminate].
  - cbn [app]. rewrite execute_loop in *. unfold bind in *.
    destruct (load_cell it) as [v ita|e' ita|]; [|exact H|discriminate].
    destruct (v =? 0); [now apply IH|].
    destruct (execute f' body ita) as [[] itb|e' itb|];
      [|exact H|discriminate].
    now apply (IH (Loop body :: rest)).
Qed.

Lemma execute_app_split (f : nat) :
  forall (p1 p2 : list c_token) (it it' : Interpreter),
    execute f (p1 ++ p2) it = Val tt it' ->
    exists it1 : Interpreter,
      execute f p1 it = Val tt it1 /\ execute f p2 it1 = Val tt it'.
Proof.
  induction f as [|f' IH]; intros p1 p2 it it' H; [discriminate|].
  destruct p1 as [|[token count|body] rest].
  - exists it. split; [reflexivity | exact H].
  - cbn [app] in H. rewrite execute_counted in *. unfold bind in *.
    destruct (dispatch token count it) as [[] ita|e ita|]; try discriminate.
    destruct (IH rest p2 ita it' H) as (it1 & Ha & Hb).
    exists it1. split; [exact Ha|].
    apply (execute_more f'); [lia | exact Hb].
  - cbn [app] in H. rewrite execute_loop in *. unfold bind in *.
    destruct (load_cell it) as [v ita|e ita|]; try discriminate.
    destruct (v =? 0).
    + destruct (IH rest p2 ita it' H) as (it1 & Ha & Hb).
      exists it1. split; [exact Ha|].
    apply (execute_more f'); [lia | exact Hb].
    + destruct (execute f' body ita) as [[] itb|e itb|]; try discriminate.
      destruct (IH (Loop body :: rest) p2 itb it' H) as (it1 & Ha & Hb).
      exists it1. split; [exact Ha|].
    apply (execute_more f'); [lia | exact Hb].
Qed.

(** A loop that has ended has ended on a zero cell. *)
Lemma loop_leaves_zero (fuel : nat) :
  forall (body : list c_token) (it it1 : Interpreter),
    execute fuel [Loop body] it = Val tt it1 ->
    getitem (memory it1) (data_ptr it1) = Some 0.
Proof.
  induction fuel as [|f IH]; intros body it it1; [discriminate|].
  rewrite execute_loop. unfold bind, load_cell.
  destruct (getitem (memory it) (data_ptr it)) as [v|] eqn:Hv; [|discriminate].
  destruct (v =? 0) eqn:E.
  - apply Z.eqb_eq in E. subst v.
    destruct f as [|f']; [discriminate|]. now intros [= <-].
  - destruct (execute f body it) as [[] it2|e it2|]; [|discriminate|discriminate].
    apply IH.
Qed.

(** X13: when a list that begins with a loop has run to its end, the loop
    on its own, run from the same state, ends in a state whose cell under
    the pointer is zero, and the rest of the list runs from that state to
    the same end. *)
Theorem loop_exit_on_zero (fuel : nat) (body rest : list c_token)
    (it it' : Interpreter) :
  execute fuel (Loop body :: rest) it = Val tt it' ->
  exists it1 : Interpreter,
    execute fuel [Loop body] it = Val tt it1
    /\ getitem (memory it1) (data_ptr it1) = Some 0
    /\ execute fuel rest it1 = Val tt it'.
Proof.
  intros H.
  destruct (execute_app_split fuel [Loop body] rest it it' H)
    as (it1 & Hloop & Hrest).
  exists it1. split; [exact Hloop|]. split; [|exact Hrest].
  now apply (loop_leaves_zero fuel body it).
Qed.

(** X13 on [[-]+] over a cell holding 2. *)
Lemma loop_exit_on_zero_witness :
  exists it1 : Interpreter,
    execute 9 [Loop [CountedToken Incr (-1)]] (one_cell 8 2) = Val tt it1
    /\ getitem (memory it1) (data_ptr it1) = Some 0
    /\ execute 9 [CountedToken Incr 1] it1 = Val tt (one_cell 8 1).
Proof.
  apply (loop_exit_on_zero 9 [CountedToken Incr (-1)] [CountedToken Incr 1]
           (one_cell 8 2) (one_cell 8 1)).
  reflexivity.
Defined.

(** X17: executing two lists joined is executing the first and then the
    second from the state the first has left: the results compose, an
    exception of the first is the exception of the whole and the second is
    not run, and a normal end of the whole splits into a normal end of
    each. *)
Theorem execute_sequence :
  (forall (f1 f2 : nat) (p1 p2 : list c_token) (it it1 : Interpreter)
          (r : res unit),
      execute f1 p1 it = Val tt it1 ->
      execute f2 p2 it1 = r -> r <> OutOfFuel ->
      execute (f1 + f2) (p1 ++ p2) it = r)
  /\ (forall (f : nat) (p1 p2 : list c_token) (it it1 : Interpreter)
             (e : exn),
      execute f p1 it = Exc e it1 -> execute f (p1 ++ p2) it = Exc e it1)
  /\ (forall (f : nat) (p1 p2 : list c_token) (it it' : Interpreter),
      execute f (p1 ++ p2) it = Val tt it' ->
      exists it1 : Interpreter,
        execute f p1 it = Val tt it1 /\ execute f p2 it1 = Val tt it').
Proof.
  split; [exact execute_app_result|].
  split; [exact execute_app_raise | exact execute_app_split].
Qed.

(** X17 on [+ +] followed by [> .], which raises on a tape of one cell. *)
Lemma execute_sequence_witness :
  execute (3 + 3) ([CountedToken Incr 1; CountedToken Incr 1]
                   ++ [CountedToken IncrPtr 1; CountedToken StdOut 1])
    (one_cell 8 0)
  = Exc IndexError (set_data_ptr 1 (one_cell 8 2)).
Proof.
  apply (proj1 execute_sequence 3%nat 3%nat _ _ (one_cell 8 0) (one_cell 8 2));
    [reflexivity | reflexivity | discriminate].
Defined.

(** X18: when a list without loop nodes has run to its end, the pointer has
    moved by the sum of the counts of its MovePointer nodes. *)
Theorem pointer_after_straight_line (fuel : nat) :
  forall (prog : list c_token) (it it' : Interpreter),
    loop_free prog = true ->
    execute fuel prog it = Val tt it' ->
    data_ptr it' = data_ptr it + net_moves prog.
Proof.
  induction fuel as [|f IH]; intros prog it it' Hfree; [discriminate|].
  destruct prog as [|[token count|body] rest]; [| |discriminate].
  - intros [= <-]. cbn. lia.
  - rewrite execute_counted. unfold bind.
    destruct (dispatch token count it) as [[] it1|e it1|] eqn:E;
      [|discriminate|discriminate].
    intros H. rewrite (IH rest it1 it' Hfree H).
    assert (Hstep : data_ptr it1
                    = data_ptr it
                      + match token with IncrPtr => count | _ => 0 end).
    { destruct token; cbn [dispatch] in E.
      - destruct (incr_ptr_extends count it) as (it2 & k & Hr & Hp & _).
        rewrite Hr in E. now injection E as <-.
      - rewrite (keeps_ptr_incr count it it1); [lia | now rewrite E].
      - rewrite (keeps_ptr_stdout count it it1); [lia | now rewrite E].
      - rewrite (keeps_ptr_stdin count it it1); [lia | now rewrite E].
      - injection E as <-. lia.
      - injection E as <-. lia. }
    rewrite Hstep. destruct token; cbn [net_moves foldr]; fold (net_moves rest); lia.
Qed.

(** X18 on [>> + < .] over three cells. *)
Lemma pointer_after_straight_line_witness :
  let it := mkInterpreter [] [] 0 0 [] 8 [65; 66; 67] 256 [] [] in
  exists it',
    execute 9 [CountedToken IncrPtr 2; CountedToken Incr 1;
               CountedToken IncrPtr (-1); CountedToken StdOut 1] it
    = Val tt it'
    /\ data_ptr it' = 0 + (2 + (-1 + 0)).
Proof.
  intros it. eexists. split; [vm_compute; reflexivity|].
  apply (pointer_after_straight_line 9
           [CountedToken IncrPtr 2; CountedToken Incr 1;
            CountedToken IncrPtr (-1); CountedToken StdOut 1] it);
    [reflexivity | vm_compute; reflexivity].
Defined.

(** ** Parsing twice *)

(** X4: once [parse] has returned, calling it again on the same
    interpreter returns at once and changes nothing: the compiled program is
    not built a second time. *)
Theorem parse_again (it it' : Interpreter) :
  parse it = Val tt it' -> parse it' = Val tt it'.
Proof.
  intros H. pose proof (parse_inv it) as Hinv. rewrite H in Hinv.
  destruct Hinv as (((_ & Hp & _) & _) & Hs & Hlen).
  unfold parse, bind, get.
  rewrite parse_loop_done by (rewrite Hp; exact Hlen).
  now rewrite Hs.
Qed.

(** X4 on ["+[-]"]. *)
Lemma parse_again_witness :
  exists it',
    parse (at_start (src "+[-]") (one_cell 8 0)) = Val tt it'
    /\ c_tokens it' = [CountedToken Incr 1; Loop [CountedToken Incr (-1)]]
    /\ parse it' = Val tt it'.
Proof.
  eexists. split; [vm_compute; reflexivity|]. split; [reflexivity|].
  apply (parse_again (at_start (src "+[-]") (one_cell 8 0))).
  vm_compute; reflexivity.
Defined.

(** X3 on [",,+-[..>]"]. *)
Lemma compiled_well_formed_witness :
  exists it',
    parse (at_start (src ",,+-[..>]") (one_cell 8 0)) = Val tt it'
    /\ c_tokens it'
       = [CountedToken StdIn 2; CountedToken Incr 0;
          Loop [CountedToken StdOut 2; CountedToken IncrPtr 1]]
    /\ well_formed_list (c_tokens it') = true.
Proof.
  eexists. split; [vm_compute; reflexivity|]. split; [reflexivity|].
  apply (compiled_well_formed (src ",,+-[..>]") (one_cell 8 0)).
  vm_compute; reflexivity.
Defined.

(** ** Compilation and the tape *)

(** X19: [parse], whether it returns or raises, leaves the tape, its
    pointer, the configuration and both streams as they were: compiling
    reads no input and writes no output.  What was in [c_tokens] stays at
    its front. *)
Theorem parse_leaves_tape (it it' : Interpreter) :
  final_state (parse it) = Some it' ->
  memory it' = memory it /\ data_ptr it' = data_ptr it
  /\ cell_size it' = cell_size it /\ max_int it' = max_int it
  /\ program it' = program it
  /\ sys_stdin it' = sys_stdin it /\ sys_stdout it' = sys_stdout it
  /\ c_tokens it `prefix_of` c_tokens it'.
Proof.
  intros H. pose proof (parse_inv it) as Hinv.
  destruct (parse it) as [[] it1|e it1|]; [| |discriminate];
    injection H as ->;
    destruct Hinv as (((Hd & Hp & Hw & Hm & Hmi & Hin & Hout) & Hpre & _) & _);
    now repeat split.
Qed.

(** X19 on [",[.,]"] with input waiting. *)
Lemma parse_leaves_tape_witness :
  let it := mkInterpreter [] [] 1 0 (src ",[.,]") 8 [7; 8] 256 [104; 105] [33] in
  exists it',
    parse it = Val tt it'
    /\ memory it' = [7; 8] /\ data_ptr it' = 1
    /\ sys_stdin it' = [104; 105] /\ sys_stdout it' = [33].
Proof.
  intros it. eexists. split; [vm_compute; reflexivity|].
  destruct (parse_leaves_tape it _ ltac:(vm_compute; reflexivity))
    as (Hm & Hd & _ & _ & _ & Hin & Hout & _).
  now repeat split.
Defined.

(** ** Moves at and beyond the end of the tape *)

(** X20: a move that stops exactly one past the end of a tape of [L >= 2]
    cells appends [L // 2] zero cells; the cells that were there keep their
    values and the pointer then addresses a cell holding zero. *)
Theorem tape_growth_at_end (count : Z) (it : Interpreter) :
  data_ptr it + count = Z.of_nat (length (memory it)) ->
  (2 <= length (memory it))%nat ->
  exists it' : Interpreter,
    incr_ptr count it = Val tt it'
    /\ data_ptr it' = Z.of_nat (length (memory it))
    /\ memory it' = memory it ++ replicate (length (memory it) / 2)%nat 0
    /\ (length (memory it) + 1 <= length (memory it'))%nat
    /\ load_cell it' = Val 0 it'.
Proof.
  intros Hp HL.
  destruct (incr_ptr_grows_at_end count it Hp HL) as (it' & Hr & Hm & Hlen).
  exists it'. split; [exact Hr|].
  assert (Hd : data_ptr it' = Z.of_nat (length (memory it))).
  { rewrite (incr_ptr_grow it count Hp) in Hr. injection Hr as <-.
    cbn [data_ptr set_memory set_data_ptr]. exact Hp. }
  split; [exact Hd|]. split; [exact Hm|]. split; [exact Hlen|].
  apply (load_cell_at it' (length (memory it))).
  - rewrite Hd. rewrite py_index_nonneg by lia. now rewrite Nat2Z.id.
  - rewrite Hm, lookup_app_r by lia. rewrite Nat.sub_diag.
    assert (1 <= length (memory it) / 2)%nat
      by (apply Nat.div_le_lower_bound; lia).
    destruct (length (memory it) / 2)%nat; [lia | reflexivity].
Qed.

(** X20 on a tape of four cells, stepping from index 3 to index 4. *)
Lemma tape_growth_at_end_witness :
  let it := mkInterpreter [] [] 3 0 [] 8 [1; 2; 3; 4] 256 [] [] in
  exists it',
    incr_ptr 1 it = Val tt it'
    /\ data_ptr it' = 4
    /\ memory it' = [1; 2; 3; 4] ++ replicate (4 / 2)%nat 0
    /\ (4 + 1 <= length (memory it'))%nat
    /\ load_cell it' = Val 0 it'.
Proof.
  intros it. apply (tape_growth_at_end 1 it); [reflexivity | simpl; lia].
Defined.

(** X21: a move that lands beyond one past the end leaves the tape as it
    is, and from then on a loop test, a ModifyCell and an Output of at least
    one character all raise [IndexError]. *)
Theorem move_past_end_strands_pointer (count : Z) (it : Interpreter) :
  Z.of_nat (length (memory it)) < data_ptr it + count ->
  exists it1 : Interpreter,
    incr_ptr count it = Val tt it1
    /\ memory it1 = memory it
    /\ data_ptr it1 = data_ptr it + count
    /\ (forall (fuel : nat) (body rest : list c_token),
          execute (S fuel) (Loop body :: rest) it1 = Exc IndexError it1)
    /\ (forall c : Z, incr c it1 = Exc IndexError it1)
    /\ (forall c : Z, 1 <= c -> stdout c it1 = Exc IndexError it1).
Proof.
  intros H. destruct (incr_ptr_past_end count it H) as [Hr Hload].
  exists (set_data_ptr (data_ptr it + count) it).
  split; [exact Hr|]. split; [reflexivity|]. split; [reflexivity|].
  split; [|split].
  - intros fuel body rest. rewrite execute_loop. unfold bind. now rewrite Hload.
  - intros c. unfold incr, bind. now rewrite Hload.
  - intros c Hc. unfold stdout.
    destruct (Z.to_nat c) as [|k] eqn:E; [lia|].
    cbn [stdout_loop]. unfold bind. now rewrite Hload.
Qed.

(** X21 on a tape of two cells, three steps right from index 0. *)
Lemma move_past_end_strands_pointer_witness :
  let it := mkInterpreter [] [] 0 0 [] 8 [0; 0] 256 [] [] in
  exists it1,
    incr_ptr 3 it = Val tt it1
    /\ memory it1 = [0; 0]
    /\ data_ptr it1 = 3
    /\ incr 1 it1 = Exc IndexError it1.
Proof.
  intros it.
  destruct (move_past_end_strands_pointer 3 it ltac:(simpl; lia))
    as (it1 & Hr & Hm & Hd & _ & Hincr & _).
  exists it1. split; [exact Hr|]. split; [exact Hm|]. split; [exact Hd|].
  apply Hincr.
Defined.

(** ** The transfer loop in general *)

(** X22: on a tape whose first two cells hold [a] and [n], both in range,
    with the pointer on the second, the loop [[<+>-]] ends with
    [(a + n) mod 2^W] in the first cell and zero in the second, the pointer
    back on the second and the rest of the interpreter untouched. *)
Theorem transfer_adds (st : list (list c_token)) (ct : list c_token)
    (ip : nat) (prog : list ascii) (W mi : Z) (tl sin sout : list Z)
    (a n : Z) :
  1 <= W ->
  0 <= a < 2 ^ W ->
  0 <= n < 2 ^ W ->
  exists fuel : nat,
    execute fuel [Loop transfer_body] (tape2 st ct ip prog W mi tl sin sout a n 1)
    = Val tt (tape2 st ct ip prog W mi tl sin sout ((a + n) mod 2 ^ W) 0 1).
Proof.
  intros HW Ha Hn. exists (Z.to_nat n + 6)%nat.
  pose proof (transfer_loop st ct ip prog W mi tl sin sout HW (Z.to_nat n) a Ha)
    as H.
  rewrite Z2Nat.id in H by lia. apply H. lia.
Qed.

(** X22 with 8-bit cells, 200 and 100: the sum wraps to 44. *)
Lemma transfer_adds_witness :
  exists fuel : nat,
    execute fuel [Loop transfer_body]
      (tape2 [] [] 0 [] 8 256 [] [] [] 200 100 1)
    = Val tt (tape2 [] [] 0 [] 8 256 [] [] [] ((200 + 100) mod 2 ^ 8) 0 1)
  /\ (200 + 100) mod 2 ^ 8 = 44.
Proof.
  destruct (transfer_adds [] [] 0 [] 8 256 [] [] [] 200 100
              ltac:(lia) ltac:(simpl; lia) ltac:(simpl; lia)) as [fuel H].
  exists fuel. split; [exact H | reflexivity].
Defined.

(** ** Negative pointers *)

(** C10: a move that leaves the pointer at [p] with [-L <= p <= -1] completes
    without growing the tape, and afterwards every access is to the cell at
    index [L + p]: a loop is skipped when that cell is zero, the loop [[-]]
    counts that cell down to zero, [incr] and [stdin] write it and [stdout]
    writes its value. *)
Theorem negative_pointer_wraps (it : Interpreter) (count : Z) :
  - Z.of_nat (length (memory it)) <= data_ptr it + count <= -1 ->
  exists (it1 : Interpreter) (n : nat) (v : Z),
    incr_ptr count it = Val tt it1
    /\ it1 = set_data_ptr (data_ptr it + count) it
    /\ memory it1 = memory it
    /\ Z.of_nat n = Z.of_nat (length (memory it)) + (data_ptr it + count)
    /\ memory it !! n = Some v
    /\ load_cell it1 = Val v it1
    /\ (v = 0 ->
        forall (fuel : nat) (body : list c_token),
          execute (S (S fuel)) [Loop body] it1 = Val tt it1)
    /\ (1 <= cell_size it -> 0 < v < 2 ^ cell_size it ->
        exists fuel : nat,
          execute fuel [Loop [CountedToken Incr (-1)]] it1
          = Val tt (set_memory (<[n := 0]> (memory it)) it1))
    /\ (forall c : Z,
          1 <= cell_size it ->
          incr c it1
          = Val tt (set_memory
                      (<[n := (v + c) mod 2 ^ cell_size it]> (memory it)) it1))
    /\ (forall c : Z,
          writable v = true ->
          stdout c it1
          = Val tt (set_sys_stdout
                      (sys_stdout it ++ replicate (Z.to_nat c) v) it1))
    /\ (forall (ch : Z) (rest : list Z),
          sys_stdin it = ch :: rest ->
          stdin 1 it1
          = Val tt (set_memory (<[n := ch]> (memory it))
                      (set_sys_stdin rest it1))).
Proof.
  intros Hp.
  set (L := length (memory it)) in *. set (p := data_ptr it + count) in *.
  set (it1 := set_data_ptr p it).
  set (n := Z.to_nat (Z.of_nat L + p)).
  assert (Hn : py_index (length (memory it1)) (data_ptr it1) = Some n)
    by (apply py_index_negative; subst it1; simpl; fold L; lia).
  assert (Hlt : (n < L)%nat) by (subst n; lia).
  destruct (lookup_lt_is_Some_2 (memory it) n Hlt) as [v Hv].
  assert (Hload : load_cell it1 = Val v it1) by now apply (load_cell_at it1 n).
  exists it1, n, v.
  split; [apply incr_ptr_nogrow; fold L p; lia|].
  split; [reflexivity|]. split; [reflexivity|]. split; [subst n; lia|].
  split; [exact Hv|]. split; [exact Hload|].
  split; [intros -> fuel body; rewrite execute_loop; unfold bind;
          now rewrite Hload|].
  split.
  { intros HW Hr. exists (Z.to_nat v + 2)%nat.
    apply (clear_loop_down (Z.to_nat v) it1 n); auto;
      rewrite Z2Nat.id by lia; [exact Hv | subst it1; simpl; lia]. }
  split; [intros c HW; now apply (incr_at it1 c v n)|].
  split.
  - intros c Hc. unfold stdout.
    rewrite (stdout_loop_writes (Z.to_nat c) it1 v);
      [reflexivity | now apply (getitem_Some _ _ n) | exact Hc].
  - intros ch rest Hin.
    rewrite (stdin_single 1 ch rest n it1); auto.
Qed.

(** C10 on the tapes [1; 2; 3] and [1; 2; 0], stepping from index 0 to
    index -1, which is the cell at index 2: the loop [[-]] clears the 3 and
    any loop is skipped on the 0. *)
Lemma negative_pointer_wraps_witness :
  (let it := mkInterpreter [] [] 0 0 [] 8 [1; 2; 3] 256 [66] [] in
   exists (it1 : Interpreter),
     incr_ptr (-1) it = Val tt it1
     /\ memory it1 = [1; 2; 3]
     /\ data_ptr it1 = -1
     /\ load_cell it1 = Val 3 it1
     /\ (exists fuel : nat,
           execute fuel [Loop [CountedToken Incr (-1)]] it1
           = Val tt (set_memory [1; 2; 0] it1))
     /\ incr 1 it1 = Val tt (set_memory [1; 2; 4] it1)
     /\ stdout 2 it1 = Val tt (set_sys_stdout [3; 3] it1)
     /\ stdin 1 it1 = Val tt (set_memory [1; 2; 66] (set_sys_stdin [] it1)))
  /\ (let it := mkInterpreter [] [] 0 0 [] 8 [1; 2; 0] 256 [] [] in
      exists (it1 : Interpreter),
        incr_ptr (-1) it = Val tt it1
        /\ data_ptr it1 = -1
        /\ forall body : list c_token,
             execute 2 [Loop body] it1 = Val tt it1).
Proof.
  split; intros it.
  2:{ destruct (negative_pointer_wraps it (-1) ltac:(simpl; lia))
        as (it1 & n & v & Hmove & -> & _ & Hn & Hv & _ & Hskip & _).
      assert (n = 2%nat) as -> by (simpl in Hn; lia).
      injection Hv as <-.
      exists (set_data_ptr (-1) it).
      split; [exact Hmove|]. split; [reflexivity|].
      intros body. exact (Hskip eq_refl 0%nat body). }
  destruct (negative_pointer_wraps it (-1) ltac:(simpl; lia))
    as (it1 & n & v & Hmove & -> & Hmem & Hn & Hv & Hload & _ & Hloop
        & Hincr & Hout & Hin).
  assert (n = 2%nat) as -> by (simpl in Hn; lia).
  injection Hv as <-.
  exists (set_data_ptr (-1) it).
  split; [exact Hmove|]. split; [reflexivity|]. split; [reflexivity|].
  split; [exact Hload|].
  split; [exact (Hloop ltac:(simpl; lia) ltac:(simpl; lia))|].
  split; [exact (Hincr 1 ltac:(simpl; lia))|].
  split; [exact (Hout 2 eq_refl)|].
  exact (Hin 66 [] eq_refl).
Defined.

(** * Failed compilation *)

(** ** The scan of a text and of its beginning *)

Lemma set_program_back (P Q : list ascii) (s : Interpreter) :
  program s = Q -> set_program Q (set_program P s) = s.
Proof. intros <-. now destruct s. Qed.

Lemma parse_loop_mono (f : nat) :
  forall (g : nat) (s : Interpreter),
    (f <= g)%nat -> parse_loop f s <> OutOfFuel ->
    parse_loop g s = parse_loop f s.
Proof.
  induction f as [|f' IH]; intros g s Hle Hr.
  - destruct g as [|g']; [reflexivity|].
    cbn [parse_loop] in *. unfold bind, get in *.
    destruct (instr_ptr s <? length (program s))%nat; [|reflexivity].
    now contradict Hr.
  - destruct g as [|g']; [lia|].
    cbn [parse_loop] in *. unfold bind, get in *.
    destruct (instr_ptr s <? length (program s))%nat; [|reflexivity].
    destruct (program_at (instr_ptr s) s) as [ch s1| |]; try reflexivity.
    destruct (Token_call ch s1) as [token s2| |]; try reflexivity.
    destruct (parse_branch token (step_of ch) s2) as [[] s3| |];
      try reflexivity.
    unfold modify in *. apply IH; [lia | exact Hr].
Qed.

(** One turn of the inner [while], written out. *)
Lemma fold_run_unfold (fuel : nat) (token : Token) (count : Z)
    (it : Interpreter) :
  fold_run fuel token count it
  = if (instr_ptr it <? length (program it) - 1)%nat
    then match program it !! (instr_ptr it + 1)%nat with
         | None => Exc IndexError it
         | Some ch =>
             match Token_of ch with
             | None => Exc ValueError it
             | Some t =>
                 if Token_eqb token t
                 then match fuel with
                      | O => OutOfFuel
                      | S fuel' =>
                          fold_run fuel' token (count + step_of ch)
                            (set_instr_ptr (instr_ptr it + 1) it)
                      end
                 else Val count it
             end
         end
    else Val count it.
Proof.
  destruct fuel as [|fuel']; cbn [fold_run]; unfold bind, get;
    (destruct (instr_ptr it <? length (program it) - 1)%nat; [|reflexivity]);
    unfold program_at;
    (destruct (program it !! (instr_ptr it + 1)%nat) as [ch|] eqn:Hch;
      [|reflexivity]);
    unfold Token_call; (destruct (Token_of ch) as [t|]; [|reflexivity]);
    unfold ret; (destruct (Token_eqb token t); [|reflexivity]);
    [reflexivity|].
  unfold modify. cbn [instr_ptr program set_instr_ptr]. now rewrite Hch.
Qed.

Lemma parse_loop_O (s : Interpreter) :
  parse_loop 0 s
  = if (instr_ptr s <? length (program s))%nat then OutOfFuel else Val tt s.
Proof.
  cbn [parse_loop]. unfold bind, get.
  now destruct (instr_ptr s <? length (program s))%nat.
Qed.

Lemma parse_loop_S (fuel : nat) (s : Interpreter) :
  parse_loop (S fuel) s
  = if (instr_ptr s <? length (program s))%nat
    then match program s !! instr_ptr s with
         | None => Exc IndexError s
         | Some ch =>
             match Token_of ch with
             | None => Exc ValueError s
             | Some token =>
                 match parse_branch token (step_of ch) s with
                 | Val _ s1 =>
                     parse_loop fuel (set_instr_ptr (instr_ptr s1 + 1) s1)
                 | Exc e s1 => Exc e s1
                 | OutOfFuel => OutOfFuel
                 end
             end
         end
    else Val tt s.
Proof.
  cbn [parse_loop]. unfold bind at 1. unfold get at 1.
  destruct (instr_ptr s <? length (program s))%nat; [|reflexivity].
  unfold bind at 1. unfold program_at.
  destruct (program s !! instr_ptr s) as [ch|]; [|reflexivity].
  unfold bind at 1. unfold Token_call.
  destruct (Token_of ch) as [token|]; [|reflexivity].
  unfold ret. unfold bind at 1.
  destruct (parse_branch token (step_of ch) s) as [[] s1|e s1|];
    reflexivity.
Qed.

Section Prefix.
Variables (Q : list ascii) (n : nat).
Hypothesis n_le : (n <= length Q)%nat.
Hypothesis boundary :
  forall ch : ascii,
    Q !! n = Some ch ->
    Token_of ch = Some LoopStart \/ Token_of ch = Some LoopEnd.

Lemma length_prefix : length (take n Q) = n.
Proof. rewrite length_take. lia. Qed.

(** The inner [while] on the beginning of a text and on the whole text. *)
Lemma fold_run_prefix (f : nat) :
  forall (g : nat) (token : Token) (count : Z) (s : Interpreter),
    (f <= g)%nat ->
    program s = Q -> (instr_ptr s < n)%nat ->
    token <> LoopStart -> token <> LoopEnd ->
    match fold_run f token count (set_program (take n Q) s) with
    | Val c s1 => fold_run g token count s = Val c (set_program Q s1)
    | Exc e s1 => fold_run g token count s = Exc e (set_program Q s1)
    | OutOfFuel => True
    end.
Proof.
  induction f as [|f' IH]; intros g token count s Hle HQ Hip Hs He;
    rewrite (fold_run_unfold _ token count (set_program (take n Q) s)),
            (fold_run_unfold g token count s);
    cbn [instr_ptr program set_program]; rewrite length_prefix, HQ;
    (destruct (instr_ptr s <? n - 1)%nat eqn:E;
      [apply Nat.ltb_lt in E;
       replace (instr_ptr s <? length Q - 1)%nat with true
         by (symmetry; apply Nat.ltb_lt; lia);
       rewrite lookup_take_lt by lia;
       destruct (Q !! (instr_ptr s + 1)%nat) as [ch|];
         [|now rewrite set_program_back];
       destruct (Token_of ch) as [t|]; [|now rewrite set_program_back];
       destruct (Token_eqb token t); [|now rewrite set_program_back]
      |apply Nat.ltb_ge in E; rewrite set_program_back by exact HQ;
       destruct (instr_ptr s <? length Q - 1)%nat eqn:E2; [|reflexivity];
       apply Nat.ltb_lt in E2;
       replace (instr_ptr s + 1)%nat with n by lia;
       destruct (lookup_lt_is_Some_2 Q n ltac:(lia)) as [ch Hch];
       rewrite Hch;
       destruct (boundary ch Hch) as [-> | ->]; now destruct token]).
  - exact I.
  - destruct g as [|g']; [lia|].
    apply (IH g' token (count + step_of ch)
             (set_instr_ptr (instr_ptr s + 1) s));
      [lia | exact HQ | cbn [instr_ptr set_instr_ptr]; lia | exact Hs
      | exact He].
Qed.

Lemma set_program_same (s : Interpreter) (P : list ascii) :
  program s = P -> set_program P s = s.
Proof. intros <-. now destruct s. Qed.

Lemma emit_set_program (x : c_token) (P : list ascii) (s : Interpreter) :
  exists s' : Interpreter,
    emit x s = Val tt s' /\ emit x (set_program P s) = Val tt (set_program P s').
Proof.
  unfold emit, modify. cbn [stack set_program].
  destruct (stack s); eexists; split; reflexivity.
Qed.

(** One branch of the outer [while] on the beginning of a text and on the
    whole text. *)
Lemma parse_branch_prefix (token : Token) (count : Z) (s : Interpreter) :
  program s = Q -> (instr_ptr s < n)%nat ->
  match parse_branch token count (set_program (take n Q) s) with
  | Val _ s1 => parse_branch token count s = Val tt (set_program Q s1)
  | Exc e s1 => parse_branch token count s = Exc e (set_program Q s1)
  | OutOfFuel => True
  end.
Proof.
  intros HQ Hip.
  assert (Hrun : token <> LoopStart -> token <> LoopEnd ->
    match (it0 <- get ;;
           count' <- fold_run (length (program it0)) token count ;;
           emit (CountedToken token count')) (set_program (take n Q) s) with
    | Val _ s1 =>
        (it0 <- get ;;
         count' <- fold_run (length (program it0)) token count ;;
         emit (CountedToken token count')) s = Val tt (set_program Q s1)
    | Exc e s1 =>
        (it0 <- get ;;
         count' <- fold_run (length (program it0)) token count ;;
         emit (CountedToken token count')) s = Exc e (set_program Q s1)
    | OutOfFuel => True
    end).
  { intros Hs He. unfold bind, get. cbn [program set_program].
    rewrite length_prefix, HQ.
    pose proof (fold_run_prefix n (length Q) token count s n_le HQ Hip Hs He)
      as Hf.
    destruct (fold_run n token count (set_program (take n Q) s))
      as [c s1|e s1|]; [|now rewrite Hf|exact I].
    rewrite Hf.
    destruct (emit_set_program (CountedToken token c) Q s1)
      as (s2 & -> & ->). reflexivity. }
  destruct token; cbn [parse_branch]; try (apply Hrun; discriminate).
  - unfold modify. cbn [stack set_program].
    subst Q. now destruct s.
  - unfold bind, get. cbn [stack set_program instr_ptr].
    destruct (pop (stack s)) as [[rest loop]|].
    + unfold modify.
      destruct (emit_set_program (Loop loop) Q
                  (set_stack rest (set_program (take n Q) s)))
        as (s2 & H1 & H2).
      rewrite H1.
      replace (set_stack rest s)
        with (set_program Q (set_stack rest (set_program (take n Q) s)))
        by (subst Q; now destruct s).
      exact H2.
    + unfold raise. now rewrite set_program_back.
Qed.

(** The outer [while] on the beginning of a text, up to a bracket or the
    end, and on the whole text: the scan of the whole text goes through the
    state the scan of the beginning ends in, and raises what that scan
    raises. *)
Lemma parse_loop_prefix (f : nat) :
  forall s : Interpreter,
    program s = Q -> (instr_ptr s <= n)%nat ->
    match parse_loop f (set_program (take n Q) s) with
    | Val _ s1 =>
        forall (g : nat) (r : res unit),
          parse_loop g (set_program Q s1) = r -> r <> OutOfFuel ->
          parse_loop (f + g) s = r
    | Exc e s1 => parse_loop f s = Exc e (set_program Q s1)
    | OutOfFuel => True
    end.
Proof.
  induction f as [|f' IH]; intros s HQ Hip.
  - rewrite parse_loop_O. cbn [instr_ptr program set_program].
    rewrite length_prefix.
    destruct (instr_ptr s <? n)%nat; [exact I|].
    rewrite set_program_back by exact HQ.
    intros g r Hr Hne. exact Hr.
  - rewrite (parse_loop_S f' (set_program (take n Q) s)).
    cbn [instr_ptr program set_program]. rewrite length_prefix.
    destruct (instr_ptr s <? n)%nat eqn:E.
    2:{ rewrite set_program_back by exact HQ.
        intros g r Hr Hne. subst r. apply parse_loop_mono; [lia|exact Hne]. }
    apply Nat.ltb_lt in E.
    destruct (lookup_lt_is_Some_2 Q (instr_ptr s) ltac:(lia)) as [ch Hch].
    assert (HQside : forall fuel : nat,
      parse_loop (S fuel) s
      = match Token_of ch with
        | None => Exc ValueError s
        | Some token =>
            match parse_branch token (step_of ch) s with
            | Val _ s1 =>
                parse_loop fuel (set_instr_ptr (instr_ptr s1 + 1) s1)
            | Exc e s1 => Exc e s1
            | OutOfFuel => OutOfFuel
            end
        end).
    { intros fuel. rewrite parse_loop_S, HQ.
      replace (instr_ptr s <? length Q)%nat with true
        by (symmetry; apply Nat.ltb_lt; lia).
      now rewrite Hch. }
    rewrite lookup_take_lt by lia. rewrite Hch.
    destruct (Token_of ch) as [token|] eqn:Htok.
    2:{ rewrite HQside. now rewrite set_program_back. }
    pose proof (parse_branch_prefix token (step_of ch) s HQ E) as Hb.
    pose proof (parse_branch_inv token (step_of ch)
                  (set_program (take n Q) s)) as Hinv.
    destruct (parse_branch token (step_of ch) (set_program (take n Q) s))
      as [[] s1|e s1|].
    + destruct Hinv as [((_ & Hp1 & _) & _) Hlt].
      cbn [program instr_ptr set_program] in Hp1, Hlt.
      rewrite length_prefix in Hlt. specialize (Hlt E).
      set (s2 := set_instr_ptr (instr_ptr s1 + 1) (set_program Q s1)).
      assert (H2 : set_instr_ptr (instr_ptr s1 + 1) s1
                   = set_program (take n Q) s2).
      { subst s2. rewrite <- Hp1. now destruct s1. }
      rewrite H2.
      specialize (IH s2 eq_refl ltac:(subst s2; cbn; lia)).
      assert (Hstep : forall fuel : nat,
                parse_loop (S fuel) s = parse_loop fuel s2).
      { intros fuel. rewrite HQside, Hb. reflexivity. }
      destruct (parse_loop f' (set_program (take n Q) s2)) as [[] s3|e s3|].
      * intros g r Hr Hne. cbn [Nat.add]. rewrite Hstep. now apply IH.
      * now rewrite Hstep.
      * exact I.
    + rewrite HQside. now rewrite Hb.
    + exact I.
Qed.
End Prefix.

(** ** Closing the open brackets *)

Lemma append_top_length (x : c_token) (st : list (list c_token)) :
  length (append_top x st) = length st.
Proof.
  induction st as [|b st IH]; [reflexivity|].
  cbn [append_top]. destruct st; [reflexivity|].
  cbn [length] in *. now rewrite IH.
Qed.

(** With [k + 1] brackets open and nothing but [k + 1] closing brackets
    left, the outer [while] closes them all: the stack ends empty and
    [c_tokens] has got one more node, the outermost open loop. *)
Lemma close_all (k : nat) :
  forall s : Interpreter,
    length (stack s) = S k ->
    drop (instr_ptr s) (program s) = replicate (S k) "]"%char ->
    exists (s' : Interpreter) (loop : list c_token),
      parse_loop (S k) s = Val tt s'
      /\ stack s' = []
      /\ c_tokens s' = c_tokens s ++ [Loop loop].
Proof.
  induction k as [|k IH]; intros s Hlen Hdrop.
  all: assert (Hch : program s !! instr_ptr s = Some "]"%char)
    by (rewrite <- (Nat.add_0_r (instr_ptr s)), <- lookup_drop, Hdrop;
        reflexivity).
  all: assert (Hlt : (instr_ptr s < length (program s))%nat)
    by (apply lookup_lt_is_Some; eauto).
  all: assert (Hrest : drop (instr_ptr s + 1) (program s)
                       = drop 1 (drop (instr_ptr s) (program s)))
    by (now rewrite drop_drop).
  all: rewrite Hdrop in Hrest; cbn [replicate drop] in Hrest.
  all: rewrite parse_loop_S.
  all: replace (instr_ptr s <? length (program s))%nat with true
    by (symmetry; now apply Nat.ltb_lt).
  all: rewrite Hch; change (Token_of "]"%char) with (Some LoopEnd).
  all: cbn [parse_branch]; unfold bind at 1; unfold get at 1.
  all: destruct (pop (stack s)) as [[r y]|] eqn:Hpop;
    [apply pop_Some in Hpop
    |apply pop_None in Hpop; rewrite Hpop in Hlen; discriminate].
  all: rewrite Hpop, length_app in Hlen; cbn [length] in Hlen.
  all: unfold bind, emit, modify; cbn [stack set_stack].
  - destruct r as [|? ?]; [|cbn [length] in Hlen; lia].
    eexists _, y. rewrite parse_loop_O.
    cbn [instr_ptr program set_instr_ptr set_c_tokens set_stack stack
         c_tokens].
    assert (Hend : (length (program s) <= instr_ptr s + 1)%nat).
    { apply (f_equal length) in Hrest. rewrite length_drop in Hrest.
      cbn [length] in Hrest. lia. }
    replace (instr_ptr s + 1 <? length (program s))%nat with false
      by (symmetry; now apply Nat.ltb_ge).
    repeat split.
  - destruct r as [|a r]; [cbn [length] in Hlen; lia|].
    destruct (IH (set_instr_ptr (instr_ptr s + 1)
                   (set_stack (append_top (Loop y) (a :: r)) s)))
      as (s' & loop & Hrun & Hst & Hct).
    + cbn [stack set_instr_ptr set_stack]. rewrite append_top_length. lia.
    + exact Hrest.
    + exists s', loop. split; [exact Hrun|]. split; [exact Hst|].
      exact Hct.
Qed.

(** ** What a failed [parse] leaves in [c_tokens] *)

Lemma set_program_twice (P Q : list ascii) (s : Interpreter) :
  set_program P (set_program Q s) = set_program P s.
Proof. reflexivity. Qed.

Lemma parse_raises_in_loop (it it' : Interpreter) (p : nat) :
  parse it = Exc (NoMatchingOpen p) it' ->
  parse_loop (length (program it)) it = Exc (NoMatchingOpen p) it'.
Proof.
  unfold parse, bind, get.
  destruct (parse_loop (length (program it)) it) as [[] s1|e1 s1|];
    [destruct (stack s1); unfold ret, raise; discriminate
    |now intros [= -> ->]|discriminate].
Qed.

Lemma parse_raises_after_loop (it it' : Interpreter) :
  parse it = Exc NoMatchingClosed it' ->
  parse_loop (length (program it)) it = Val tt it' /\ stack it' <> [].
Proof.
  unfold parse, bind, get.
  pose proof (parse_loop_inv (length (program it)) it) as Hinv.
  destruct (parse_loop (length (program it)) it) as [[] s1|e1 s1|];
    [|intros [= -> ->]; now destruct Hinv|discriminate].
  destruct (stack s1) eqn:Hst; unfold ret, raise; [discriminate|].
  intros [= ->]. split; [reflexivity|]. now rewrite Hst.
Qed.

(** After the error of a close bracket at [p] the interpreter is as the
    successful [parse] of the text before [p] leaves it, the program
    attribute apart: [c_tokens] is the compiled text before [p]. *)
Lemma unmatched_close_state (it it' : Interpreter) (p : nat) :
  parse it = Exc (NoMatchingOpen p) it' ->
  exists it0 : Interpreter,
    parse (set_program (take p (program it)) it) = Val tt it0
    /\ it' = set_program (program it) it0.
Proof.
  intros H. apply parse_raises_in_loop in H.
  pose proof (parse_loop_inv (length (program it)) it) as Hinv.
  rewrite H in Hinv. destruct Hinv as ((_ & _ & Hip & _) & Hp & Hch & _).
  rewrite Hp in Hip. clear Hp.
  assert (Hlt : (p < length (program it))%nat)
    by (apply lookup_lt_is_Some; eauto).
  assert (Hlen : length (take p (program it)) = p)
    by (rewrite length_take; lia).
  assert (Hb : forall ch : ascii, program it !! p = Some ch ->
                 Token_of ch = Some LoopStart \/ Token_of ch = Some LoopEnd).
  { intros ch Hc. rewrite Hch in Hc. injection Hc as <-. now right. }
  pose proof (parse_loop_prefix (program it) p ltac:(lia) Hb p it eq_refl Hip)
    as Hsim.
  pose proof (parse_loop_inv p (set_program (take p (program it)) it))
    as HinvP.
  cbn [program set_program instr_ptr] in HinvP. rewrite Hlen in HinvP.
  assert (Hwhole : forall (g : nat) (r : res unit),
            parse_loop g it = r -> r <> OutOfFuel ->
            (length (program it) <= g)%nat ->
            r = Exc (NoMatchingOpen p) it').
  { intros g r Hr Hne Hg. rewrite <- H, <- Hr. apply parse_loop_mono.
    - exact Hg.
    - rewrite H. discriminate. }
  destruct (parse_loop p (set_program (take p (program it)) it))
    as [[] s1|e1 s1|] eqn:EP.
  - destruct HinvP as [((_ & Hprog & _) & _ & _ & Hup) Hlow].
    cbn [program set_program instr_ptr] in Hprog, Hup.
    rewrite Hlen in Hup. specialize (Hup Hip).
    assert (Hs1 : instr_ptr s1 = p) by lia.
    pose proof (parse_loop_inv (length (program it))
                  (set_program (program it) s1)) as HinvQ.
    cbn [program set_program instr_ptr] in HinvQ.
    specialize (Hsim (length (program it))
                  (parse_loop (length (program it))
                     (set_program (program it) s1)) eq_refl).
    assert (Hne : parse_loop (length (program it))
                    (set_program (program it) s1) <> OutOfFuel).
    { intros E. rewrite E in HinvQ. lia. }
    specialize (Hsim Hne).
    apply Hwhole in Hsim; [|exact Hne|lia].
    clear HinvQ Hne Hwhole.
    destruct (length (program it)) as [|m] eqn:Hm; [lia|].
    rewrite parse_loop_S in Hsim.
    cbn [program set_program instr_ptr] in Hsim.
    rewrite Hs1, Hm in Hsim.
    replace (p <? S m)%nat with true in Hsim
      by (symmetry; apply Nat.ltb_lt; lia).
    rewrite Hch in Hsim. change (Token_of "]"%char) with (Some LoopEnd) in Hsim.
    cbn [parse_branch] in Hsim. unfold bind at 1 in Hsim.
    unfold get at 1 in Hsim. cbn [stack set_program] in Hsim.
    destruct (pop (stack s1)) as [[r y]|] eqn:Hpop.
    + exfalso. unfold bind, emit, modify in Hsim.
      match type of Hsim with
      | parse_loop m ?s2 = _ =>
          pose proof (parse_loop_inv m s2) as Hinv2; rewrite Hsim in Hinv2;
          destruct Hinv2 as ((_ & _ & Hge & _) & Hp2 & _);
          assert (Hi2 : instr_ptr s2 = (p + 1)%nat)
            by (cbn [instr_ptr set_instr_ptr set_stack set_c_tokens
                     set_program];
                destruct r; cbn [instr_ptr set_instr_ptr set_stack
                                 set_c_tokens set_program stack];
                now rewrite Hs1)
      end.
      lia.
    + unfold raise in Hsim. injection Hsim as Hit'.
      exists s1. split; [|now symmetry].
      unfold parse, bind, get. cbn [program set_program]. rewrite Hlen, EP.
      now rewrite (pop_None _ Hpop).
  - exfalso. destruct HinvP as [_ HeP].
    assert (He : e1 = NoMatchingOpen p).
    { assert (Hx : parse_loop (length (program it)) it
                   = Exc e1 (set_program (program it) s1)).
      { rewrite <- Hsim. apply parse_loop_mono; [lia|].
        rewrite Hsim. discriminate. }
      rewrite H in Hx. now injection Hx as <- _. }
    subst e1. destruct HeP as (_ & HchP & _).
    apply lookup_lt_Some in HchP. lia.
  - lia.
Qed.

(** After the error of an open bracket left unmatched, [c_tokens] holds the
    nodes compiled before the outermost open bracket: closing the open
    brackets at the end of the text makes [parse] succeed with exactly one
    more node, that loop. *)
Lemma unmatched_open_state (it it' : Interpreter) :
  parse it = Exc NoMatchingClosed it' ->
  (instr_ptr it <= length (program it))%nat ->
  exists (it0 : Interpreter) (loop : list c_token),
    parse (set_program
             (program it ++ replicate (length (stack it')) "]"%char) it)
    = Val tt it0
    /\ c_tokens it0 = c_tokens it' ++ [Loop loop].
Proof.
  intros H Hip. apply parse_raises_after_loop in H. destruct H as [H Hst].
  pose proof (parse_loop_inv (length (program it)) it) as Hinv.
  rewrite H in Hinv.
  destruct Hinv as [((_ & Hprog & _) & _ & _ & Hup) Hlow].
  specialize (Hup Hip).
  destruct (length (stack it')) as [|k] eqn:Hk;
    [destruct (stack it'); [now elim Hst|discriminate]|].
  set (Q := program it ++ replicate (S k) "]"%char).
  assert (Hb : forall ch : ascii, Q !! length (program it) = Some ch ->
                 Token_of ch = Some LoopStart \/ Token_of ch = Some LoopEnd).
  { intros ch. subst Q. rewrite lookup_app_r by lia. rewrite Nat.sub_diag.
    cbn [replicate lookup list_lookup]. intros [= <-]. now right. }
  pose proof (parse_loop_prefix Q (length (program it))
                ltac:(subst Q; rewrite length_app; lia) Hb
                (length (program it)) (set_program Q it) eq_refl Hip)
    as Hsim.
  replace (take (length (program it)) Q) with (program it) in Hsim
    by (subst Q; now rewrite take_app_length).
  rewrite set_program_twice, (set_program_same it _ eq_refl), H in Hsim.
  destruct (close_all k (set_program Q it')) as (s' & loop & Hrun & Hs' & Hct).
  - exact Hk.
  - cbn [instr_ptr program set_program].
    replace (instr_ptr it') with (length (program it)) by lia.
    subst Q. now rewrite drop_app_length.
  - exists s', loop. split; [|exact Hct].
    unfold parse, bind, get. cbn [program set_program].
    replace (length Q) with (length (program it) + S k)%nat
      by (subst Q; now rewrite length_app, length_replicate).
    rewrite (Hsim (S k) _ Hrun ltac:(discriminate)).
    now rewrite Hs'.
Qed.

(** C8 as amended: when [parse] raises, [run] raises the same exception for
    the caller and executes nothing: the tape, its pointer, the input and
    the output are as before the call.  The nodes that were in [c_tokens]
    are still there, and those appended before the failure are held too:
    after the error of a close bracket at [p] the interpreter is, its
    program attribute apart, as the successful [parse] of the text before
    [p] leaves it, so [c_tokens] is the whole compiled text before [p];
    after the error of an unmatched open bracket (the scan having started
    inside the text) [c_tokens] holds every top-level node of the text with
    its open brackets closed at the end, but the last one, the outermost
    open loop. *)
Theorem parse_failure_aborts_run (it it' : Interpreter) (e : exn) :
  parse it = Exc e it' ->
  (forall fuel : nat, run fuel it = Exc e it')
  /\ memory it' = memory it /\ data_ptr it' = data_ptr it
  /\ sys_stdin it' = sys_stdin it /\ sys_stdout it' = sys_stdout it
  /\ c_tokens it `prefix_of` c_tokens it'
  /\ (forall p : nat, e = NoMatchingOpen p ->
        exists it0 : Interpreter,
          parse (set_program (take p (program it)) it) = Val tt it0
          /\ it' = set_program (program it) it0)
  /\ (e = NoMatchingClosed ->
      (instr_ptr it <= length (program it))%nat ->
        exists (it0 : Interpreter) (loop : list c_token),
          parse (set_program
                   (program it ++ replicate (length (stack it')) "]"%char) it)
          = Val tt it0
          /\ c_tokens it0 = c_tokens it' ++ [Loop loop]).
Proof.
  intros H. pose proof (parse_inv it) as Hinv. rewrite H in Hinv.
  destruct Hinv as (((Hd & _ & _ & Hm & _ & Hin & Hout) & Hpre & _) & _).
  split; [intros fuel; unfold run, bind; now rewrite H|].
  repeat (split; [assumption|]). split.
  - intros p ->. now apply unmatched_close_state.
  - intros -> Hip. now apply unmatched_open_state.
Qed.

(** C8 as amended, on ["+]"], which keeps the compiled ["+"], and on
    ["+[-"], which keeps the first node of the compiled ["+[-]"]. *)
Lemma parse_failure_aborts_run_witness :
  (exists it' : Interpreter,
    parse (at_start (src "+]") (one_cell 8 0)) = Exc (NoMatchingOpen 1) it'
    /\ (forall fuel : nat,
          run fuel (at_start (src "+]") (one_cell 8 0))
          = Exc (NoMatchingOpen 1) it')
    /\ memory it' = [0] /\ data_ptr it' = 0
    /\ sys_stdin it' = [] /\ sys_stdout it' = []
    /\ (exists it0 : Interpreter,
          parse (at_start (src "+") (one_cell 8 0)) = Val tt it0
          /\ c_tokens it0 = [CountedToken Incr 1]
          /\ it' = set_program (src "+]") it0))
  /\ (exists it' : Interpreter,
    parse (at_start (src "+[-") (one_cell 8 0)) = Exc NoMatchingClosed it'
    /\ (forall fuel : nat,
          run fuel (at_start (src "+[-") (one_cell 8 0))
          = Exc NoMatchingClosed it')
    /\ c_tokens it' = [CountedToken Incr 1]
    /\ (exists (it0 : Interpreter) (loop : list c_token),
          parse (at_start (src "+[-]") (one_cell 8 0)) = Val tt it0
          /\ c_tokens it0 = [CountedToken Incr 1; Loop loop]
          /\ loop = [CountedToken Incr (-1)])).
Proof.
  split.
  - eexists. split; [vm_compute; reflexivity|].
    destruct (parse_failure_aborts_run
                (at_start (src "+]") (one_cell 8 0)) _ (NoMatchingOpen 1)
                ltac:(vm_compute; reflexivity))
      as (Hrun & Hm & Hd & Hin & Hout & _ & Hclose & _).
    repeat (split; [assumption|]).
    destruct (Hclose 1%nat eq_refl) as (it0 & Hp & Hit').
    exists it0. split; [exact Hp|]. split; [|exact Hit'].
    vm_compute in Hp. injection Hp as <-. reflexivity.
  - eexists. split; [vm_compute; reflexivity|].
    destruct (parse_failure_aborts_run
                (at_start (src "+[-") (one_cell 8 0)) _ NoMatchingClosed
                ltac:(vm_compute; reflexivity))
      as (Hrun & _ & _ & _ & _ & _ & _ & Hopen).
    split; [exact Hrun|]. split; [reflexivity|].
    destruct (Hopen eq_refl ltac:(vm_compute; lia)) as (it0 & loop & Hp & Hc).
    exists it0, loop. split; [exact Hp|]. split; [exact Hc|].
    vm_compute in Hp. injection Hp as <-. vm_compute in Hc.
    now injection Hc as <-.
Defined.
